(** * The face-matching upload endpoint of [flask_docker/app.py]

    A shallow embedding of the request handler [upload_and_match] and the
    properties of its validation, staging, matching and relocation steps.

    The handler is sequential Python.  Its effects are the three directories
    below [BASE_DIR] and the log book; its collaborators are the operating
    system, [json.loads] and the [face_recognition] library.  The
    collaborators are interfaces here (type classes), the handler is a
    function of the request and the file system that also gives the lines it
    logs, and an uncaught Python exception is an outcome of its own. *)

From Stdlib Require Import ZArith List String Ascii Bool Lia DecimalString.
From Stdlib Require Import Floats.SpecFloat.
From stdpp Require Import base option gmap strings list.

Set Warnings "-register-all".

Open Scope Z_scope.

(** ** Binary64 arithmetic

    Python's [float] and numpy's [float64] are IEEE 754 binary64, rounded to
    nearest with ties to even.  The standard library's [SpecFloat] gives the
    operations; they are instantiated at 53 bits of precision. *)

Module F64.

Definition prec : Z := 53.
Definition emax : Z := 1024.

Abbreviation float := spec_float.

Definition valid (x : float) : bool := valid_binary prec emax x.

Definition of_Z (z : Z) : float := binary_normalize prec emax z 0 false.

Definition sub (x y : float) : float := SFsub prec emax x y.
Definition mul (x y : float) : float := SFmul prec emax x y.
Definition div (x y : float) : float := SFdiv prec emax x y.
Definition ltb (x y : float) : bool := SFltb x y.
Definition leb (x y : float) : bool := SFleb x y.
Definition eqb (x y : float) : bool := SFeqb x y.

(** A decimal literal [n / 10^k] such as [0.4] denotes the double nearest
    to that rational, which is what the correctly rounded division of the
    two integers returns (both are exact doubles for the literals of the
    handler). *)
Definition of_decimal (n : Z) (k : nat) : float :=
  div (of_Z n) (of_Z (10 ^ Z.of_nat k)).

Definition zero : float := S754_zero false.
Definition one : float := of_Z 1.
Definition hundred : float := of_Z 100.

(** *** Fixed-point formatting, [format(x, ".2f")]

    CPython prints the decimal with two fractional digits that is nearest
    to the exact binary value, ties going to the even last digit.
    [hundredths] is that decimal counted in hundredths. *)
Definition round_half_even (num den : Z) : Z :=
  let q := num / den in
  let r := num mod den in
  match Z.compare (2 * r) den with
  | Lt => q
  | Gt => q + 1
  | Eq => if Z.even q then q else q + 1
  end.

Definition hundredths (m : positive) (e : Z) : Z :=
  match e with
  | Zneg p => round_half_even (Zpos m * 100) (2 ^ Zpos p)
  | _ => Zpos m * 100 * 2 ^ e
  end.

Definition digits (z : Z) : string := NilZero.string_of_int (Z.to_int z).

Definition two_digits (z : Z) : string :=
  if z <? 10 then ("0" ++ digits z)%string else digits z.

Definition fixed2 (n : Z) : string :=
  (digits (n / 100) ++ "." ++ two_digits (n mod 100))%string.

Definition sign_prefix (s : bool) : string := if s then "-"%string else ""%string.

Definition format_2f (x : float) : string :=
  match x with
  | S754_nan => "nan"%string
  | S754_infinity s => (sign_prefix s ++ "inf")%string
  | S754_zero s => (sign_prefix s ++ "0.00")%string
  | S754_finite s m e => (sign_prefix s ++ fixed2 (hundredths m e))%string
  end.

(** *** Comparing with a normal number

    [at_least mc ec x]: [x] is a valid double, positive, and not below the
    normal double [mc * 2^ec]; this is the order in which [SFcompare] looks
    at the exponents and then at the mantissas. *)
Definition at_least (mc : positive) (ec : Z) (x : float) : bool :=
  match x with
  | S754_infinity false => true
  | S754_finite false m e =>
      bounded prec emax m e && ((ec <? e) || ((e =? ec) && (mc <=? m)%positive))
  | _ => false
  end.

(** [m1 * 2^e1 <= m2 * 2^e2], over the integers. *)
Definition le_val (m1 : positive) (e1 : Z) (m2 : positive) (e2 : Z) : Prop :=
  Zpos m1 * 2 ^ (e1 - Z.min e1 e2) <= Zpos m2 * 2 ^ (e2 - Z.min e1 e2).

(** The double just above 0.6, which [1.0 - distance] reaches for every
    distance below the threshold, and the double just above 60. *)
Definition sixty_percent : positive * Z := (5404319552844596%positive, -53).
Definition above_sixty : positive * Z := (8444249301319681%positive, -47).

(** [at_most mc ec x]: [x] is a valid double, not negative, and not above
    the normal double [mc * 2^ec]. *)
Definition at_most (mc : positive) (ec : Z) (x : float) : bool :=
  match x with
  | S754_zero false => true
  | S754_finite false m e =>
      bounded prec emax m e && ((e <? ec) || ((e =? ec) && (m <=? mc)%positive))
  | _ => false
  end.

(** [m1 * 2^e1 < m2 * 2^e2], over the integers. *)
Definition lt_val (m1 : positive) (e1 : Z) (m2 : positive) (e2 : Z) : Prop :=
  Zpos m1 * 2 ^ (e1 - Z.min e1 e2) < Zpos m2 * 2 ^ (e2 - Z.min e1 e2).

(** *** Two decimal digits, as the specification words it

    "formatted as a percentage string with 2 decimal digits": the number of
    hundredths nearest to [m * 2^e], a tie going to the even one, written as
    a decimal numeral with two digits after the point.  These definitions
    use no definition of the formatting above, for comparison with it. *)
Definition spec_nearest_hundredths (m : positive) (e n : Z) : Prop :=
  let p := Z.max 0 (- e) in
  let num := Zpos m * 100 * 2 ^ (e + p) in
  let den := 2 ^ p in
  2 * Z.abs (num - n * den) <= den
  /\ (2 * Z.abs (num - n * den) = den -> Z.even n = true).

Definition spec_digit (d : Z) : ascii := ascii_of_nat (48 + Z.to_nat d).

Definition spec_two_decimals (n : Z) : string :=
  (NilZero.string_of_int (Z.to_int (n / 100)) ++ "."
   ++ String (spec_digit (n mod 100 / 10)) (String (spec_digit (n mod 10)) ""))%string.

End F64.

(** ** Values decoded from JSON

    [json.loads] returns [None], [bool], [int], [float], [str], [list] and
    [dict] objects.  A [dict] keeps its items in insertion order; the keys of
    a decoded object are strings. *)

Inductive pyval : Type :=
  | PNone
  | PBool (b : bool)
  | PInt (z : Z)
  | PFloat (x : F64.float)
  | PStr (s : string)
  | PList (items : list pyval)
  | PDict (items : list (string * pyval)).

(** The exceptions that occur in the handler outside a catch-all block.
    [json.JSONDecodeError] is a subclass of [ValueError]; the [ValueError]
    here is one that is not a [JSONDecodeError]. *)
Inductive exn : Type :=
  | JSONDecodeError
  | KeyError (key : string)
  | TypeError
  | RecursionError
  | ValueError.

Definition dict_get (d : list (string * pyval)) (k : string) : option pyval :=
  snd <$> List.find (fun kv => String.eqb (fst kv) k) d.

(** [item[k]] for a string [k]: only a [dict] can be indexed by a string, and
    a missing key raises [KeyError]. *)
Definition subscript (item : pyval) (k : string) : exn + pyval :=
  match item with
  | PDict d =>
      match dict_get d k with
      | Some v => inr v
      | None => inl (KeyError k)
      end
  | _ => inl TypeError
  end.

(** [for item in v]: a list yields its elements, a dict its keys, a string its
    characters; the other decoded values are not iterable. *)
Definition py_iter (v : pyval) : exn + list pyval :=
  match v with
  | PList l => inr l
  | PDict d => inr (map (fun kv => PStr (fst kv)) d)
  | PStr s => inr (map (fun c => PStr (String c EmptyString)) (list_ascii_of_string s))
  | _ => inl TypeError
  end.

Definition hashable (v : pyval) : bool :=
  match v with
  | PList _ | PDict _ => false
  | _ => true
  end.

(** Equality of dict keys: numbers compare by value across [bool], [int] and
    [float].  A dict compares the identity of two keys before their values,
    and [json.loads] returns one and the same object for every [NaN] of a
    text, so that a decoded NaN equals a decoded NaN, and nothing else. *)
Definition float_eqb_Z (x : F64.float) (z : Z) : bool :=
  match x with
  | S754_zero _ => z =? 0
  | S754_finite s m e =>
      match e with
      | Zneg p => (Zpos m mod 2 ^ Zpos p =? 0) && (cond_Zopp s (Zpos m / 2 ^ Zpos p) =? z)
      | _ => cond_Zopp s (Zpos m * 2 ^ e) =? z
      end
  | _ => false
  end.

Definition is_nan (x : F64.float) : bool :=
  match x with
  | S754_nan => true
  | _ => false
  end.

Definition key_eqb (a b : pyval) : bool :=
  match a, b with
  | PNone, PNone => true
  | PStr s, PStr t => String.eqb s t
  | PBool x, PBool y => Bool.eqb x y
  | PBool x, PInt z | PInt z, PBool x => Z.b2z x =? z
  | PInt y, PInt z => y =? z
  | PFloat x, PFloat y => F64.eqb x y || (is_nan x && is_nan y)
  | PFloat x, PInt z | PInt z, PFloat x => float_eqb_Z x z
  | PFloat x, PBool y | PBool y, PFloat x => float_eqb_Z x (Z.b2z y)
  | _, _ => false
  end.

(** [d[k] = v] on an insertion-ordered dict: an equal key keeps its place and
    its key object, a new key goes to the end. *)
Fixpoint dict_set (k v : pyval) (d : list (pyval * pyval)) : list (pyval * pyval) :=
  match d with
  | [] => [(k, v)]
  | (k', v') :: d' =>
      if key_eqb k' k then (k', v) :: d' else (k', v') :: dict_set k v d'
  end.

(** One step of [{item['name']: item['id'] for item in photo_data}]: the key,
    then the value, then the store into the dict (which hashes the key). *)
Definition add_photo (acc : list (pyval * pyval)) (item : pyval)
  : exn + list (pyval * pyval) :=
  match subscript item "name" with
  | inl e => inl e
  | inr k =>
      match subscript item "id" with
      | inl e => inl e
      | inr v => if hashable k then inr (dict_set k v acc) else inl TypeError
      end
  end.

Fixpoint add_photos (acc : list (pyval * pyval)) (items : list pyval)
  : exn + list (pyval * pyval) :=
  match items with
  | [] => inr acc
  | item :: rest =>
      match add_photo acc item with
      | inl e => inl e
      | inr acc' => add_photos acc' rest
      end
  end.

Definition photo_map (photo_data : pyval) : exn + list (pyval * pyval) :=
  match py_iter photo_data with
  | inl e => inl e
  | inr items => add_photos [] items
  end.

(** [d[k]] on the mapping, [None] for a missing key. *)
Definition dict_lookup (k : pyval) (d : list (pyval * pyval)) : option pyval :=
  snd <$> List.find (λ kv, key_eqb kv.1 k) d.

(** The names of a mapping that are strings, in its order. *)
Definition names_of (d : list (pyval * pyval)) : list string :=
  omap (λ kv, match kv.1 with PStr n => Some n | _ => None end) d.

(** An entry that the comprehension accepts: an object with the keys [name]
    and [id] whose name can be hashed. *)
Definition good_item (item : pyval) : Prop :=
  ∃ d k v, item = PDict d ∧ dict_get d "name" = Some k ∧ dict_get d "id" = Some v
           ∧ hashable k = true.

(** The ids that the entries give to the name [n], in the order of the
    entries. *)
Definition ids_named (n : string) (items : list pyval) : list pyval :=
  omap (λ item,
          match subscript item "name", subscript item "id" with
          | inr (PStr m), inr v => if String.eqb m n then Some v else None
          | _, _ => None
          end) items.

(** ** Strings and paths *)

Definition lower_ascii (c : ascii) : ascii :=
  let n := nat_of_ascii c in
  if ((65 <=? n) && (n <=? 90))%nat then ascii_of_nat (n + 32) else c.

(** [str.lower], on the ASCII letters. *)
Fixpoint lower (s : string) : string :=
  match s with
  | EmptyString => EmptyString
  | String c s' => String (lower_ascii c) (lower s')
  end.

Definition endswith (s suffix : string) : bool :=
  let n := String.length s in
  let k := String.length suffix in
  ((k <=? n)%nat && String.eqb (substring (n - k) k s) suffix).

Definition startswith (s pre : string) : bool := String.prefix pre s.

(** [file.filename.lower().endswith(('.jpg', '.jpeg', '.png'))] *)
Definition allowed_extension (filename : string) : bool :=
  let f := lower filename in
  endswith f ".jpg" || endswith f ".jpeg" || endswith f ".png".

(** [os.path.join(a, b)] of [posixpath]: an absolute [b] replaces [a]. *)
Definition path_join (a b : string) : string :=
  if startswith b "/" then b
  else if String.eqb a "" || endswith a "/" then (a ++ b)%string
  else (a ++ "/" ++ b)%string.

(** [s.split('/')] *)
Fixpoint split_slash (s : string) : list string :=
  match s with
  | EmptyString => [EmptyString]
  | String c s' =>
      if Ascii.eqb c "/" then EmptyString :: split_slash s'
      else match split_slash s' with
           | [] => [String c EmptyString]
           | x :: xs => String c x :: xs
           end
  end.

(** The loop of [os.path.normpath] over the components: empty and [.]
    components are dropped, [..] removes the component before it, except at
    the start of a relative path and after another [..]; at the root it is
    dropped. *)
Definition norm_step (absolute : bool) (new_comps : list string) (comp : string)
  : list string :=
  if String.eqb comp "" || String.eqb comp "." then new_comps
  else if negb (String.eqb comp "..")
          || (negb absolute && bool_decide (new_comps = []))
          || bool_decide (last new_comps = Some ".."%string)
       then new_comps ++ [comp]
       else removelast new_comps.

Definition normpath (path : string) : string :=
  if String.eqb path "" then "."%string
  else
    let absolute := startswith path "/" in
    let slashes :=
      if absolute && startswith path "//" && negb (startswith path "///")
      then "//"%string
      else if absolute then "/"%string else ""%string in
    let comps := fold_left (norm_step absolute) (split_slash path) [] in
    let joined := (slashes ++ String.concat "/" comps)%string in
    if String.eqb joined "" then "."%string else joined.

(** The folder part that [os.path.join] puts before a relative name. *)
Definition dir_prefix (a : string) : string :=
  if String.eqb a "" || endswith a "/" then a else (a ++ "/")%string.

(** [path] names the directory [dir] or something below it. *)
Definition within (dir path : string) : bool :=
  String.eqb (normpath path) (normpath dir)
  || startswith (normpath path) (normpath dir ++ "/").

(** ** The collaborators

    The operating system, [json] and [face_recognition] are not part of the
    repository.  Each is an interface; a caught exception is the text that
    [str(e)] gives.  A call that writes returns the state it leaves behind
    together with the exception it raised, if any. *)

Class FileSystem : Type := {
  fs_state : Type;
  (** [os.getenv(name)] when the module is loaded *)
  os_getenv : string → option string;
  (** [FileStorage.save(path)] of the uploaded bytes *)
  file_save : fs_state → string → list Byte.byte → fs_state * option string;
  (** [os.path.exists(path)] *)
  os_path_exists : fs_state → string → bool;
  (** [shutil.move(src, dst)] *)
  shutil_move : fs_state → string → string → fs_state * option string;
}.

Module json.
Class API : Type := {
  (** [json.loads(s)]: the decoded value, or the exception that the decoder
      raised.  That is [JSONDecodeError] for a text that is not JSON; the
      decoder also raises [RecursionError] for a text that is nested too
      deep and, from Python 3.11, [ValueError] for an integer of more digits
      than the interpreter converts. *)
  loads : string → exn + pyval;
}.
End json.

Module face_recognition.
Class API `{FileSystem} : Type := {
  image : Type;
  encoding : Type;
  load_image_file : fs_state → string → string + image;
  face_encodings : image → string + list encoding;
  (** [compare_faces known e tolerance] is the one entry of
      [compare_faces([known], e, tolerance=tolerance)] *)
  compare_faces : encoding → encoding → F64.float → bool;
  (** [face_distance known e] is the one entry of
      [face_distance([known], e)] *)
  face_distance : encoding → encoding → F64.float;
}.
End face_recognition.

(** ** Requests, responses and the log book *)

Record FileStorage : Type := {
  filename : string;
  content : list Byte.byte;
}.

Record request : Type := {
  files : gmap string FileStorage;
  form : gmap string string;
}.

Record MatchResult : Type := {
  uploaded_face_index : nat;
  matched_face_index_in_bulk : nat;
  matched_file : string;
  matched_id : pyval;
  confidence : string;
  face_distance : F64.float;
}.

(** The JSON object handed to [jsonify]. *)
Inductive body : Type :=
  | Error (error : string)
  | Matches (message : string) (matches : list MatchResult) (uploaded_file : string)
  | Message (message : string) (uploaded_file : string).

(** What the client gets: a response with its status, or the framework's
    answer to an exception that left the handler. *)
Inductive outcome : Type :=
  | Response (b : body) (status : nat)
  | Uncaught (e : exn).

Inductive level : Type := INFO | WARNING | ERROR.

(** A log line; the two lines that print a Python object keep the object. *)
Inductive log_message : Type :=
  | Text (s : string)
  | ParsedPhotos (selected_photos : list (pyval * pyval))
  | MatchFound (r : MatchResult).

(** A step of the handler either goes on with a value or leaves the handler
    with its outcome ([return] or an uncaught [raise]). *)
Inductive flow (A : Type) : Type :=
  | Next (a : A)
  | Return (o : outcome).
Arguments Next {A} a.
Arguments Return {A} o.

Section Handler.

Context `{FS : FileSystem} `{JS : json.API} `{FR : !face_recognition.API}.

(** *** Module constants *)

Definition BASE_DIR : string := default "/app"%string (os_getenv "BASE_DIR").
Definition BULK_FOLDER : string := path_join BASE_DIR "bulk".
Definition SINGLE_FOLDER : string := path_join BASE_DIR "single".
Definition PROCESSED_FOLDER : string := path_join BASE_DIR "processed".

(** *** Control flow

    The handler reads and writes the file system and appends lines to the
    log book, which it never reads.  A computation maps the state of the
    file system to the state it leaves, the lines it logged and the way
    it ended. *)

Definition M (A : Type) : Type :=
  fs_state → fs_state * list (level * log_message) * flow A.

#[global] Instance M_ret : MRet M := λ A a s, (s, [], Next a).
#[global] Instance M_bind : MBind M := λ A B f m s,
  match m s with
  | (s', l, Next a) =>
      match f a s' with
      | (s'', l', r) => (s'', l ++ l', r)
      end
  | (s', l, Return o) => (s', l, Return o)
  end.

Definition return_ {A} (o : outcome) : M A := λ s, (s, [], Return o).
Definition raise {A} (e : exn) : M A := return_ (Uncaught e).

Definition logger (l : level) (msg : log_message) : M unit :=
  λ s, (s, [(l, msg)], Next tt).

Definition read_fs {A} (f : fs_state → A) : M A := λ s, (s, [], Next (f s)).

(** A call that may change the file system and may raise. *)
Definition write_fs (f : fs_state → fs_state * option string) : M (option string) :=
  λ s, ((f s).1, [], Next (f s).2).

Fixpoint foldM {A B} (f : B → A → M B) (l : list A) (b : B) : M B :=
  match l with
  | [] => mret b
  | a :: l' => b' ← f b a; foldM f l' b'
  end.

Definition run (m : M outcome) (s : fs_state)
  : fs_state * list (level * log_message) * outcome :=
  match m s with
  | (s', l, Next o) | (s', l, Return o) => (s', l, o)
  end.

Definition jsonify (b : body) : outcome := Response b 200.
Definition jsonify_status (b : body) (status : nat) : outcome := Response b status.

Definition enumerate {A} (l : list A) : list (nat * A) := imap pair l.

(** *** The handler, block by block *)

Definition tolerance : F64.float := F64.of_decimal 5 1.
Definition distance_threshold : F64.float := F64.of_decimal 4 1.

(** [max(0, x)] keeps [x] only when [x > 0]; the integer [0] it returns
    otherwise is written as the float zero, which formats the same way. *)
Definition max0 (x : F64.float) : F64.float :=
  if F64.ltb F64.zero x then x else F64.zero.

(** [max(0, (1.0 - distance)) * 100] *)
Definition confidence_value (distance : F64.float) : F64.float :=
  F64.mul (max0 (F64.sub F64.one distance)) F64.hundred.

(** [f"{confidence:.2f} %"] *)
Definition confidence_text (distance : F64.float) : string :=
  (F64.format_2f (confidence_value distance) ++ " %")%string.

(** Lines 40-62: the four checks, in order. *)
Definition parse_photos (json_data : string) : exn + list (pyval * pyval) :=
  match json.loads json_data with
  | inl e => inl e
  | inr photo_data => photo_map photo_data
  end.

Definition validate (req : request) : M (FileStorage * list (pyval * pyval)) :=
  match files req !! "file"%string, form req !! "json_data"%string with
  | Some file, Some json_data =>
      if String.eqb (filename file) "" then
        logger WARNING (Text "No file selected.");;
        return_ (jsonify_status (Error "No selected file") 400)
      else if negb (allowed_extension (filename file)) then
        logger WARNING (Text ("Invalid file type: " ++ filename file));;
        return_ (jsonify_status
          (Error "Invalid file type. Only .jpg, .jpeg, and .png are allowed.") 400)
      else
        match parse_photos json_data with
        | inr selected_photos =>
            logger INFO (ParsedPhotos selected_photos);;
            mret (file, selected_photos)
        | inl JSONDecodeError | inl (KeyError _) =>
            logger ERROR (Text "Invalid JSON data provided.");;
            return_ (jsonify_status
              (Error "Invalid JSON data. Each entry must include 'name' and 'id' fields.") 400)
        | inl e => raise e
        end
  | _, _ =>
      logger WARNING (Text "File or JSON data missing in the request.");;
      return_ (jsonify_status (Error "File and JSON data are required") 400)
  end.

(** Lines 64-71: save the uploaded file. *)
Definition single_image_path (file : FileStorage) : string :=
  path_join SINGLE_FOLDER (filename file).

Definition save_upload (file : FileStorage) : M unit :=
  r ← write_fs (λ s, file_save s (single_image_path file) (content file));
  match r with
  | None => logger INFO (Text ("File saved at " ++ single_image_path file))
  | Some e =>
      logger ERROR (Text ("Failed to save uploaded file: " ++ e));;
      return_ (jsonify_status (Error ("Failed to save uploaded file: " ++ e)) 500)
  end.

(** [load_image_file] followed by [face_encodings], inside one [try]. *)
Definition encode_file (path : string) : M (string + list face_recognition.encoding) :=
  read_fs (λ s,
    match face_recognition.load_image_file s path with
    | inl e => inl e
    | inr img => face_recognition.face_encodings img
    end).

(** Lines 73-83: encode the uploaded image; no face is a 400. *)
Definition encode_upload (file : FileStorage) : M (list face_recognition.encoding) :=
  r ← encode_file (single_image_path file);
  match r with
  | inl e =>
      logger ERROR (Text ("Failed to process the uploaded image: " ++ e));;
      return_ (jsonify_status (Error ("Failed to process the uploaded image: " ++ e)) 500)
  | inr [] =>
      logger WARNING (Text "No face detected in the uploaded image.");;
      return_ (jsonify_status (Error "No face detected in the uploaded image") 400)
  | inr single_encodings => mret single_encodings
  end.

(** Lines 109-121: one pair of faces. *)
Definition compare_pair (image_file : string) (image_id : pyval)
    (i : nat) (single_encoding : face_recognition.encoding)
    (j : nat) (bulk_encoding : face_recognition.encoding) : option MatchResult :=
  let match_ := face_recognition.compare_faces bulk_encoding single_encoding tolerance in
  let distance := face_recognition.face_distance bulk_encoding single_encoding in
  if match_ && F64.ltb distance distance_threshold then
    Some {| uploaded_face_index := i;
            matched_face_index_in_bulk := j;
            matched_file := image_file;
            matched_id := image_id;
            confidence := confidence_text distance;
            face_distance := distance |}
  else None.

(** Lines 107-122: the nested loops over the faces, appending to [results]. *)
Definition bulk_faces_loop (image_file : string) (image_id : pyval)
    (bulk_encodings : list face_recognition.encoding)
    (results : list MatchResult) (ie : nat * face_recognition.encoding)
  : M (list MatchResult) :=
  foldM (λ results je,
           match compare_pair image_file image_id ie.1 ie.2 je.1 je.2 with
           | Some r => logger INFO (MatchFound r);; mret (results ++ [r])
           | None => mret results
           end)
        (enumerate bulk_encodings) results.

Definition faces_loop (image_file : string) (image_id : pyval)
    (single_encodings bulk_encodings : list face_recognition.encoding)
    (results : list MatchResult) : M (list MatchResult) :=
  foldM (bulk_faces_loop image_file image_id bulk_encodings)
        (enumerate single_encodings) results.

(** Lines 90-122: the body of the loop over [selected_photos.items()].
    [os.path.join] raises [TypeError] on a key that is not a string. *)
Definition candidate (single_encodings : list face_recognition.encoding)
    (results : list MatchResult) (kv : pyval * pyval) : M (list MatchResult) :=
  match kv.1 with
  | PStr image_file =>
      let bulk_image_path := path_join BULK_FOLDER image_file in
      present ← read_fs (λ s, os_path_exists s bulk_image_path);
      if negb present then
        logger WARNING (Text ("Bulk image not found: " ++ bulk_image_path));;
        mret results
      else
        r ← encode_file bulk_image_path;
        match r with
        | inl e =>
            logger WARNING
              (Text ("Error processing bulk image " ++ bulk_image_path ++ ": " ++ e));;
            mret results
        | inr [] =>
            logger WARNING (Text ("No faces detected in bulk image: " ++ bulk_image_path));;
            mret results
        | inr bulk_encodings =>
            faces_loop image_file kv.2 single_encodings bulk_encodings results
        end
  | _ => raise TypeError
  end.

Definition match_candidates (single_encodings : list face_recognition.encoding)
    (selected_photos : list (pyval * pyval)) : M (list MatchResult) :=
  foldM (candidate single_encodings) selected_photos [].

(** Lines 124-131: move the upload to the processed folder. *)
Definition processed_image_path (file : FileStorage) : string :=
  path_join PROCESSED_FOLDER (filename file).

Definition move_upload (file : FileStorage) : M unit :=
  r ← write_fs (λ s, shutil_move s (single_image_path file) (processed_image_path file));
  match r with
  | None => logger INFO (Text ("File moved to processed folder: " ++ processed_image_path file))
  | Some e =>
      logger ERROR (Text ("Failed to move processed image: " ++ e));;
      return_ (jsonify_status (Error ("Failed to move processed image: " ++ e)) 500)
  end.

(** Lines 133-145: the two successful answers. *)
Definition respond (file : FileStorage) (results : list MatchResult) : M outcome :=
  match results with
  | _ :: _ =>
      logger INFO (Text ("Matching completed successfully for file: " ++ filename file));;
      mret (jsonify (Matches "Success! Matches found." results (filename file)))
  | [] =>
      logger INFO (Text ("No matches found for file: " ++ filename file));;
      mret (jsonify (Message "No match found" (filename file)))
  end.

(** What follows the validation of a request. *)
Definition process (file : FileStorage) (selected_photos : list (pyval * pyval))
  : M outcome :=
  save_upload file;;
  single_encodings ← encode_upload file;
  results ← match_candidates single_encodings selected_photos;
  move_upload file;;
  respond file results.

Definition upload_and_match (req : request)
  : fs_state → fs_state * list (level * log_message) * outcome :=
  run (logger INFO (Text "Received request at /upload_and_match endpoint.");;
       fp ← validate req;
       process fp.1 fp.2).

(** *** Reading the loops as lists

    The faces of one candidate that are recorded, in the order in which
    the nested loops visit them. *)
Definition pair_matches (image_file : string) (image_id : pyval)
    (ie : nat * face_recognition.encoding)
    (bulk_encodings : list face_recognition.encoding) : list MatchResult :=
  omap (λ je, compare_pair image_file image_id ie.1 ie.2 je.1 je.2)
       (enumerate bulk_encodings).

Definition face_matches (image_file : string) (image_id : pyval)
    (single_encodings bulk_encodings : list face_recognition.encoding)
  : list MatchResult :=
  enumerate single_encodings ≫= λ ie, pair_matches image_file image_id ie bulk_encodings.

Definition match_lines (rs : list MatchResult) : list (level * log_message) :=
  (λ r, (INFO, MatchFound r)) <$> rs.

(** What [encode_file] computes on a state of the file system. *)
Definition encodings_at (s : fs_state) (path : string)
  : string + list face_recognition.encoding :=
  match face_recognition.load_image_file s path with
  | inl e => inl e
  | inr img => face_recognition.face_encodings img
  end.

(** The results that one candidate adds, and the results of the loop over
    the dict, which ends in a [TypeError] at a key that is not a string. *)
Definition candidate_matches (s : fs_state)
    (single_encodings : list face_recognition.encoding)
    (image_file : string) (image_id : pyval) : list MatchResult :=
  let bulk_image_path := path_join BULK_FOLDER image_file in
  if os_path_exists s bulk_image_path then
    match encodings_at s bulk_image_path with
    | inl _ => []
    | inr bulk_encodings =>
        face_matches image_file image_id single_encodings bulk_encodings
    end
  else [].

Fixpoint all_matches (s : fs_state)
    (single_encodings : list face_recognition.encoding)
    (selected_photos : list (pyval * pyval)) : exn + list MatchResult :=
  match selected_photos with
  | [] => inr []
  | (PStr image_file, image_id) :: rest =>
      match all_matches s single_encodings rest with
      | inr rs => inr (candidate_matches s single_encodings image_file image_id ++ rs)
      | inl e => inl e
      end
  | _ :: _ => inl TypeError
  end.

(** The file system and the outcome that [process] leaves, as a decision
    tree over the calls it makes. *)
Definition saved (file : FileStorage) (s : fs_state) : fs_state * option string :=
  file_save s (single_image_path file) (content file).

Definition moved (file : FileStorage) (s : fs_state) : fs_state * option string :=
  shutil_move s (single_image_path file) (processed_image_path file).

Definition after_process (file : FileStorage) (selected_photos : list (pyval * pyval))
    (s : fs_state) : fs_state * outcome :=
  let saved := saved file s in
  match saved.2 with
  | Some e =>
      (saved.1, Response (Error ("Failed to save uploaded file: " ++ e)) 500)
  | None =>
      match encodings_at saved.1 (single_image_path file) with
      | inl e =>
          (saved.1, Response (Error ("Failed to process the uploaded image: " ++ e)) 500)
      | inr [] =>
          (saved.1, Response (Error "No face detected in the uploaded image") 400)
      | inr single_encodings =>
          match all_matches saved.1 single_encodings selected_photos with
          | inl e => (saved.1, Uncaught e)
          | inr results =>
              let moved := moved file saved.1 in
              match moved.2 with
              | Some e =>
                  (moved.1, Response (Error ("Failed to move processed image: " ++ e)) 500)
              | None =>
                  (moved.1,
                   match results with
                   | [] => Response (Message "No match found" (filename file)) 200
                   | _ :: _ =>
                       Response (Matches "Success! Matches found." results (filename file)) 200
                   end)
              end
          end
      end
  end.

(** The three failures of a candidate that the loop passes over. *)
Definition skipped (s : fs_state) (image_file : string) : Prop :=
  let bulk_image_path := path_join BULK_FOLDER image_file in
  os_path_exists s bulk_image_path = false
  ∨ (∃ e, encodings_at s bulk_image_path = inl e)
  ∨ encodings_at s bulk_image_path = inr [].

(** The four ways in which the handler rejects a request before it saves
    the upload (lines 40-62): the fourth is what the [except] clause of line
    60 catches, that is [JSONDecodeError] and [KeyError], and nothing more. *)
Definition rejected (req : request) : Prop :=
  files req !! "file"%string = None
  ∨ form req !! "json_data"%string = None
  ∨ (∃ file, files req !! "file"%string = Some file ∧
       (filename file = ""%string ∨ allowed_extension (filename file) = false))
  ∨ (∃ json_data, form req !! "json_data"%string = Some json_data ∧
       (parse_photos json_data = inl JSONDecodeError
        ∨ ∃ k, parse_photos json_data = inl (KeyError k))).

(** *** The fourth check as the specification words it

    "[json_data] must parse as JSON; must be an array of objects each
    containing [name] and [id] keys."  These two definitions follow the
    specification, for comparison with [rejected]. *)
Definition spec_valid_json_data (json_data : string) : Prop :=
  ∃ items,
    json.loads json_data = inr (PList items)
    ∧ Forall (λ item, ∃ d, item = PDict d ∧ is_Some (dict_get d "name")
                           ∧ is_Some (dict_get d "id")) items.

Definition spec_fails_validation (req : request) : Prop :=
  files req !! "file"%string = None
  ∨ form req !! "json_data"%string = None
  ∨ (∃ file, files req !! "file"%string = Some file ∧
       (filename file = ""%string ∨ allowed_extension (filename file) = false))
  ∨ (∃ json_data, form req !! "json_data"%string = Some json_data ∧
       ¬ spec_valid_json_data json_data).

(** *** Reading the log and the order of the results *)

(** The matches that the log book reports, in the order of its lines. *)
Definition logged_matches (l : list (level * log_message)) : list MatchResult :=
  omap (λ lm, match lm.2 with MatchFound r => Some r | _ => None end) l.

(** The two face indices of a result, and the order of the nested loops:
    the uploaded face first, then the face of the bulk image. *)
Definition indices (r : MatchResult) : nat * nat :=
  (uploaded_face_index r, matched_face_index_in_bulk r).

Definition lex_lt (a b : nat * nat) : Prop :=
  (a.1 < b.1)%nat ∨ (a.1 = b.1 ∧ (a.2 < b.2)%nat).

End Handler.

(** ** A test double

    The file system is a finite map from paths to contents.  An image is a
    sequence of two-byte faces, the distance of two faces is their
    difference in units of [10^-5], and two faces compare equal within a
    tolerance when their distance is at most the tolerance, as the library
    does. *)

Module Stub.

#[export] Instance file_system : FileSystem := {|
  fs_state := gmap string (list Byte.byte);
  os_getenv := λ _, None;
  file_save := λ s path data, (<[path := data]> s, None);
  os_path_exists := λ s path, bool_decide (is_Some (s !! path));
  shutil_move := λ s src dst,
    match s !! src with
    | Some data => (<[dst := data]> (delete src s), None)
    | None => (s, Some "No such file or directory"%string)
    end;
|}.

Definition quoted (s : string) : string :=
  (String "034" "" ++ s ++ String "034" "")%string.

(** [[{"name": "a.jpg", "id": 1}, {"name": "b.jpg", "id": 2}]] *)
Definition two_photos : string :=
  ("[{" ++ quoted "name" ++ ":" ++ quoted "a.jpg" ++ "," ++ quoted "id" ++ ":1},{"
        ++ quoted "name" ++ ":" ++ quoted "b.jpg" ++ "," ++ quoted "id" ++ ":2}]")%string.

(** [[{"name": "a.jpg", "id": 1}]] *)
Definition one_photo : string :=
  ("[{" ++ quoted "name" ++ ":" ++ quoted "a.jpg" ++ "," ++ quoted "id" ++ ":1}]")%string.

Definition photo (name : string) (id : Z) : pyval :=
  PDict [("name"%string, PStr name); ("id"%string, PInt id)].

#[export] Instance json_api : json.API := {|
  json.loads := λ s,
    if String.eqb s two_photos then inr (PList [photo "a.jpg" 1; photo "b.jpg" 2])
    else if String.eqb s one_photo then inr (PList [photo "a.jpg" 1])
    else if String.eqb s "[1]" then inr (PList [PInt 1])
    else if String.eqb s "[]" then inr (PList [])
    else inl JSONDecodeError;
|}.

Fixpoint faces (img : list Byte.byte) : list Z :=
  match img with
  | hi :: lo :: rest =>
      (256 * Z.of_N (Byte.to_N hi) + Z.of_N (Byte.to_N lo)) :: faces rest
  | _ => []
  end.

Definition distance (a b : Z) : F64.float := F64.of_decimal (Z.abs (a - b)) 5.

#[export] Instance face_api : face_recognition.API := {|
  face_recognition.image := list Byte.byte;
  face_recognition.encoding := Z;
  face_recognition.load_image_file := λ s path,
    match s !! path with
    | Some data => inr data
    | None => inl "cannot identify image file"%string
    end;
  face_recognition.face_encodings := λ img, inr (faces img);
  face_recognition.compare_faces := λ known e tol, F64.leb (distance known e) tol;
  face_recognition.face_distance := distance;
|}.

Definition face (z : Z) : list Byte.byte :=
  match Byte.of_N (Z.to_N (z / 256)), Byte.of_N (Z.to_N (z mod 256)) with
  | Some hi, Some lo => [hi; lo]
  | _, _ => []
  end.

Definition upload (name : string) (data : list Byte.byte) (json_data : string) : request :=
  {| files := {[ "file"%string := {| filename := name; content := data |} ]};
     form := {[ "json_data"%string := json_data ]} |}.

Definition handle (req : request) (disk : gmap string (list Byte.byte))
  : gmap string (list Byte.byte) * list (level * log_message) * outcome :=
  upload_and_match req disk.

(** [bulk/a.jpg] shows a face at distance 0.2 of the face [0]; there is no
    [bulk/b.jpg]. *)
Definition disk : gmap string (list Byte.byte) :=
  {[ "/app/bulk/a.jpg"%string := face 20000 ]}.

(** Here [bulk/a.jpg] shows a face at distance 0.39999. *)
Definition disk_near : gmap string (list Byte.byte) :=
  {[ "/app/bulk/a.jpg"%string := face 39999 ]}.

(** The upload and the matches of the examples. *)
Definition face1 : FileStorage := {| filename := "face1.jpg"; content := face 0 |}.

Definition match_a : MatchResult :=
  {| uploaded_face_index := 0; matched_face_index_in_bulk := 0;
     matched_file := "a.jpg"; matched_id := PInt 1;
     confidence := "80.00 %";
     face_distance := F64.of_decimal 2 1 |}.

Definition match_near : MatchResult :=
  {| uploaded_face_index := 0; matched_face_index_in_bulk := 0;
     matched_file := "a.jpg"; matched_id := PInt 1;
     confidence := "60.00 %";
     face_distance := F64.of_decimal 39999 5 |}.

End Stub.

(** ** Collaborators that fail

    A disk without room, a face library that rejects an image without bytes,
    and decoders that know a text with a number for a name, the empty object
    and a text that is nested too deep. *)

Module Faulty.

(** With [room] the upload can still be written; a move always fails. *)
Definition full_disk (room : bool) : FileSystem := {|
  fs_state := gmap string (list Byte.byte);
  os_getenv := λ _, None;
  file_save := λ s path data,
    if room then (<[path := data]> s, None)
    else (s, Some "No space left on device"%string);
  os_path_exists := λ s path, bool_decide (is_Some (s !! path));
  shutil_move := λ s src dst, (s, Some "No space left on device"%string);
|}.

Definition faces_on_full_disk (room : bool) : @face_recognition.API (full_disk room) :=
  @face_recognition.Build_API (full_disk room) (list Byte.byte) Z
    (λ s path,
       match (s : gmap string (list Byte.byte)) !! path with
       | Some data => inr data
       | None => inl "cannot identify image file"%string
       end)
    (λ img, inr (Stub.faces img))
    (λ known e tol, F64.leb (Stub.distance known e) tol)
    Stub.distance.

Definition strict_faces : @face_recognition.API Stub.file_system :=
  @face_recognition.Build_API Stub.file_system (list Byte.byte) Z
    (λ s path,
       match (s : gmap string (list Byte.byte)) !! path with
       | Some [] | None => inl "cannot identify image file"%string
       | Some data => inr data
       end)
    (λ img, inr (Stub.faces img))
    (λ known e tol, F64.leb (Stub.distance known e) tol)
    Stub.distance.

(** [[{"name": 5, "id": 1}]] *)
Definition numeric_name : string :=
  ("[{" ++ Stub.quoted "name" ++ ":5," ++ Stub.quoted "id" ++ ":1}]")%string.

Definition json_numbers : json.API := {|
  json.loads := λ s,
    if String.eqb s numeric_name
    then inr (PList [PDict [("name"%string, PInt 5); ("id"%string, PInt 1)]])
    else @json.loads Stub.json_api s;
|}.

(** A text that stands for one nested deeper than the recursion limit of the
    interpreter, which the decoder gives up on. *)
Definition deep_nesting : string := "[[[[[[[[[[[[[[[[...]]]]]]]]]]]]]]]]".

(** A decoder that also knows the empty object and the text above. *)
Definition json_objects : json.API := {|
  json.loads := λ s,
    if String.eqb s "{}" then inr (PDict [])
    else if String.eqb s deep_nesting then inl RecursionError
    else @json.loads Stub.json_api s;
|}.

End Faulty.

(** * Properties *)

(** ** The literals, the formatting and the scenario of the specification *)

Example literal_0_4 : F64.of_decimal 4 1 = S754_finite false 7205759403792794 (-54).
Proof. vm_compute. reflexivity. Qed.

Example literal_0_5 : F64.of_decimal 5 1 = S754_finite false 4503599627370496 (-53).
Proof. vm_compute. reflexivity. Qed.

Example format_80 : F64.format_2f (F64.of_Z 80) = "80.00"%string.
Proof. vm_compute. reflexivity. Qed.

Example format_third : F64.format_2f (F64.div (F64.of_Z 1) (F64.of_Z 3)) = "0.33"%string.
Proof. vm_compute. reflexivity. Qed.

Example format_tie : F64.format_2f (F64.of_decimal 125 3) = "0.12"%string.
Proof. vm_compute. reflexivity. Qed.

Example scenario_outcome :
  (Stub.handle (Stub.upload "face1.jpg" (Stub.face 0) Stub.two_photos) Stub.disk).2
  = Response (Matches "Success! Matches found."
                [ {| uploaded_face_index := 0; matched_face_index_in_bulk := 0;
                     matched_file := "a.jpg"; matched_id := PInt 1;
                     confidence := "80.00 %";
                     face_distance := F64.of_decimal 2 1 |} ]
                "face1.jpg") 200.
Proof. vm_compute. reflexivity. Qed.

(** ** Rounding to nearest

    What [SpecFloat]'s rounding returns for a positive number that is at
    least a given normal double: the shifts divide the mantissa by a power
    of two, the rounding adds at most one, and the result is a valid double
    that is not below the given one. *)

Lemma size_bounds p : 2 ^ (Zpos (Pos.size p) - 1) <= Zpos p < 2 ^ Zpos (Pos.size p).
Proof.
  induction p as [p IH|p IH|]; simpl Pos.size.
  - rewrite Pos2Z.inj_succ.
    replace (Z.succ (Zpos (Pos.size p)) - 1) with (Z.succ (Zpos (Pos.size p) - 1)) by lia.
    rewrite !Z.pow_succ_r by lia. lia.
  - rewrite Pos2Z.inj_succ.
    replace (Z.succ (Zpos (Pos.size p)) - 1) with (Z.succ (Zpos (Pos.size p) - 1)) by lia.
    rewrite !Z.pow_succ_r by lia. lia.
  - simpl. lia.
Qed.

Lemma digits2_pos_size p : digits2_pos p = Pos.size p.
Proof. induction p; simpl; congruence. Qed.

Lemma size_unique p k : 2 ^ (k - 1) <= Zpos p < 2 ^ k -> Zpos (Pos.size p) = k.
Proof.
  intros [Hlo Hhi]. pose proof (size_bounds p) as [Hlo' Hhi'].
  assert (0 < k).
  { destruct (Z.ltb_spec 0 k); [done|]. 
    assert (2 ^ k <= 2 ^ 0) by (apply Z.pow_le_mono_r; lia). simpl in *. lia. }
  destruct (Z.lt_trichotomy (Zpos (Pos.size p)) k) as [Hlt|[Heq|Hgt]]; [|done|].
  - assert (2 ^ Zpos (Pos.size p) <= 2 ^ (k - 1)) by (apply Z.pow_le_mono_r; lia). lia.
  - assert (2 ^ k <= 2 ^ (Zpos (Pos.size p) - 1)) by (apply Z.pow_le_mono_r; lia). lia.
Qed.

Lemma shr_1_m mrs : 0 <= shr_m mrs -> shr_m (shr_1 mrs) = shr_m mrs / 2.
Proof.
  destruct mrs as [m r s]. simpl. intros Hm.
  destruct m as [|[p|p|]|p]; simpl in *; try lia;
    Z.to_euclidean_division_equations; lia.
Qed.

Lemma pow2_xI n : 2 ^ Zpos n~1 = 2 * 2 ^ Zpos n * 2 ^ Zpos n.
Proof.
  replace (Zpos n~1) with (Zpos n + Zpos n + 1) by lia.
  rewrite !Z.pow_add_r by lia. change (2 ^ 1) with 2. ring.
Qed.

Lemma pow2_xO n : 2 ^ Zpos n~0 = 2 ^ Zpos n * 2 ^ Zpos n.
Proof.
  replace (Zpos n~0) with (Zpos n + Zpos n) by lia.
  by rewrite Z.pow_add_r by lia.
Qed.

Lemma iter_shr_m n : forall mrs,
  0 <= shr_m mrs -> shr_m (SpecFloat.iter_pos shr_1 n mrs) = shr_m mrs / 2 ^ Zpos n.
Proof.
  assert (forall k, 0 < 2 ^ Zpos k) as Hpos by (intros; by apply Z.pow_pos_nonneg).
  induction n as [n IH|n IH|]; intros mrs Hm; simpl SpecFloat.iter_pos.
  - assert (0 <= shr_m (shr_1 mrs)) by (rewrite shr_1_m by done; apply Z.div_pos; lia).
    assert (0 <= shr_m (SpecFloat.iter_pos shr_1 n (shr_1 mrs))).
    { rewrite IH by done. apply Z.div_pos; [lia|apply Hpos]. }
    rewrite !IH, shr_1_m by done.
    pose proof (Hpos n).
    rewrite !Z.div_div by (first [lia|nia]). rewrite pow2_xI. f_equal. ring.
  - assert (0 <= shr_m (SpecFloat.iter_pos shr_1 n mrs)).
    { rewrite IH by done. apply Z.div_pos; [lia|apply Hpos]. }
    rewrite !IH by done. pose proof (Hpos n).
    rewrite !Z.div_div by (first [lia|nia]). by rewrite pow2_xO.
  - by apply shr_1_m.
Qed.

Lemma shr_m_of_loc m l : shr_m (shr_record_of_loc m l) = m.
Proof. by destruct l as [|[]]. Qed.

Lemma shr_spec mrs e n :
  0 <= shr_m mrs -> 0 <= n ->
  shr_m (shr mrs e n).1 = shr_m mrs / 2 ^ n /\ (shr mrs e n).2 = e + n.
Proof.
  intros Hm Hn. destruct n as [|p|p]; simpl; [|by rewrite iter_shr_m|lia].
  split; [by rewrite Z.div_1_r|lia].
Qed.

Lemma shr_fexp_spec (M : positive) e l :
  e <= fexp F64.prec F64.emax (Zpos (Pos.size M) + e) ->
  shr_m (shr_fexp F64.prec F64.emax (Zpos M) e l).1
  = Zpos M / 2 ^ (fexp F64.prec F64.emax (Zpos (Pos.size M) + e) - e)
  /\ (shr_fexp F64.prec F64.emax (Zpos M) e l).2 = fexp F64.prec F64.emax (Zpos (Pos.size M) + e).
Proof.
  intros Hn. unfold shr_fexp. simpl Zdigits2. rewrite digits2_pos_size.
  destruct (shr_spec (shr_record_of_loc (Zpos M) l) e
              (fexp F64.prec F64.emax (Zpos (Pos.size M) + e) - e)) as [-> ->];
    rewrite ?shr_m_of_loc; [lia..|]. split; [done|lia].
Qed.

Lemma rne_bounds m l : m <= round_nearest_even m l <= m + 1.
Proof. destruct l as [|[]]; simpl; try destruct (Z.even m); lia. Qed.

Lemma pow2_lt_inv a b : 2 ^ a < 2 ^ b -> 0 <= b -> a < b.
Proof.
  intros H Hb. destruct (Z.ltb_spec a b); [done|].
  assert (2 ^ b <= 2 ^ a) by (apply Z.pow_le_mono_r; lia). lia.
Qed.

Lemma le_val_digits mc ec M E :
  Zpos (Pos.size mc) = 53 -> F64.le_val mc ec M E ->
  53 + ec <= Zpos (Pos.size M) + E.
Proof.
  unfold F64.le_val. intros Hmc Hle.
  pose proof (size_bounds mc) as [Hc _]. rewrite Hmc in Hc. simpl (53 - 1) in Hc.
  pose proof (size_bounds M) as [_ HM].
  destruct (Z.le_ge_cases E ec) as [HE|HE].
  - rewrite Z.min_r, Z.sub_diag, Z.mul_1_r in Hle by lia.
    assert (2 ^ (52 + (ec - E)) < 2 ^ Zpos (Pos.size M)) as Hlt.
    { rewrite Z.pow_add_r by lia.
      assert (0 < 2 ^ (ec - E)) by (apply Z.pow_pos_nonneg; lia). nia. }
    apply pow2_lt_inv in Hlt; lia.
  - rewrite Z.min_l, Z.sub_diag, Z.mul_1_r in Hle by lia.
    assert (2 ^ 52 < 2 ^ (Zpos (Pos.size M) + (E - ec))) as Hlt.
    { rewrite Z.pow_add_r by lia.
      assert (0 < 2 ^ (E - ec)) by (apply Z.pow_pos_nonneg; lia). nia. }
    apply pow2_lt_inv in Hlt; lia.
Qed.

Lemma fexp_normal k : -1074 <= k - 53 -> fexp F64.prec F64.emax k = k - 53.
Proof. unfold fexp, emin, F64.prec, F64.emax. lia. Qed.

Lemma round_aux_at_least mc ec M E :
  Zpos (Pos.size mc) = 53 -> -1074 <= ec ->
  F64.le_val mc ec M E ->
  E <= fexp F64.prec F64.emax (Zpos (Pos.size M) + E) ->
  F64.at_least mc ec (binary_round_aux F64.prec F64.emax false (Zpos M) E loc_Exact) = true.
Proof.
  intros Hmc Hec Hle Hn.
  pose proof (le_val_digits _ _ _ _ Hmc Hle) as Hd.
  pose proof (size_bounds M) as [HMlo HMhi].
  pose proof (size_bounds mc) as [Hclo _]. rewrite Hmc in Hclo. simpl (53 - 1) in Hclo.
  set (d := Zpos (Pos.size M)) in *.
  rewrite fexp_normal in Hn by lia.
  destruct (shr_fexp_spec M E loc_Exact) as [Hm1 He1]; [rewrite fexp_normal; lia|].
  fold d in Hm1, He1. rewrite fexp_normal in Hm1, He1 by lia.
  unfold binary_round_aux.
  destruct (shr_fexp F64.prec F64.emax (Zpos M) E loc_Exact) as [mrs' e'].
  simpl in Hm1, He1. subst e'.
  set (n := d + E - 53 - E) in *.
  assert (0 < 2 ^ n) as Hpn by (apply Z.pow_pos_nonneg; lia).
  assert (2 ^ (d - 1) = 2 ^ n * 2 ^ 52) as Hsplit1.
  { rewrite <- Z.pow_add_r by lia. f_equal. lia. }
  assert (2 ^ d = 2 ^ n * 2 ^ 53) as Hsplit2.
  { rewrite <- Z.pow_add_r by lia. f_equal. lia. }
  assert (2 ^ 52 <= shr_m mrs' < 2 ^ 53) as Hm1b.
  { rewrite Hm1. split.
    - apply Z.div_le_lower_bound; lia.
    - apply Z.div_lt_upper_bound; lia. }
  assert (d + E - 53 = ec -> Zpos mc <= shr_m mrs') as Hmcm.
  { intros Heq. rewrite Hm1. apply Z.div_le_lower_bound; [lia|].
    unfold F64.le_val in Hle. rewrite Z.min_r, Z.sub_diag, Z.mul_1_r in Hle by lia.
    replace (ec - E) with n in Hle by lia. lia. }
  pose proof (rne_bounds (shr_m mrs') (loc_of_shr_record mrs')) as Hrne.
  destruct (round_nearest_even (shr_m mrs') (loc_of_shr_record mrs')) as [|q|q] eqn:Hq;
    [lia| |lia].
  destruct (Z.ltb_spec (Zpos q) (2 ^ 53)) as [Hlt|Hge].
  - assert (Zpos (Pos.size q) = 53) as Hsq by (apply size_unique; simpl (53 - 1); lia).
    destruct (shr_fexp_spec q (d + E - 53) loc_Exact) as [Hm2 He2];
      [rewrite Hsq, fexp_normal; lia|].
    rewrite Hsq, fexp_normal in Hm2, He2 by lia.
    destruct (shr_fexp F64.prec F64.emax (Zpos q) (d + E - 53) loc_Exact) as [mrs'' e''].
    simpl in Hm2, He2. subst e''.
    replace (53 + (d + E - 53) - 53 - (d + E - 53)) with 0 in Hm2 by lia.
    rewrite Z.div_1_r in Hm2. rewrite Hm2.
    replace (53 + (d + E - 53) - 53) with (d + E - 53) by lia.
    destruct (Z.leb_spec (d + E - 53) (F64.emax - F64.prec)) as [Hov|Hov]; [|done].
    simpl. unfold bounded, canonical_mantissa.
    rewrite digits2_pos_size, Hsq, fexp_normal by lia.
    apply andb_true_iff. split.
    + apply andb_true_iff. split; [apply Z.eqb_eq; lia|by apply Z.leb_le].
    + destruct (Z.ltb_spec ec (d + E - 53)); [done|]. simpl.
      apply andb_true_iff. split; [apply Z.eqb_eq; lia|].
      apply Pos.leb_le. specialize (Hmcm ltac:(lia)). lia.
  - assert (Zpos q = 2 ^ 53) as Hq53 by lia.
    assert (Zpos (Pos.size q) = 54) as Hsq.
    { apply size_unique. simpl (54 - 1). rewrite Hq53. split; [lia|].
      apply Z.pow_lt_mono_r; lia. }
    destruct (shr_fexp_spec q (d + E - 53) loc_Exact) as [Hm2 He2];
      [rewrite Hsq, fexp_normal; lia|].
    rewrite Hsq, fexp_normal in Hm2, He2 by lia.
    destruct (shr_fexp F64.prec F64.emax (Zpos q) (d + E - 53) loc_Exact) as [mrs'' e''].
    simpl in Hm2, He2. subst e''.
    replace (54 + (d + E - 53) - 53 - (d + E - 53)) with 1 in Hm2 by lia.
    rewrite Hq53 in Hm2. change (2 ^ 53 / 2 ^ 1) with (Zpos (2 ^ 52)) in Hm2.
    rewrite Hm2.
    destruct (Z.leb_spec (54 + (d + E - 53) - 53) (F64.emax - F64.prec)) as [Hov|Hov]; [|done].
    simpl. unfold bounded, canonical_mantissa.
    change (Zpos (digits2_pos (2 ^ 52))) with 53.
    rewrite fexp_normal by lia.
    apply andb_true_iff. split.
    + apply andb_true_iff. split; [apply Z.eqb_eq; lia|by apply Z.leb_le].
    + destruct (Z.ltb_spec ec (54 + (d + E - 53) - 53)); [done|lia].
Qed.

Lemma le_val_iff b m1 e1 m2 e2 :
  b <= e1 -> b <= e2 ->
  F64.le_val m1 e1 m2 e2 <-> Zpos m1 * 2 ^ (e1 - b) <= Zpos m2 * 2 ^ (e2 - b).
Proof.
  intros H1 H2. unfold F64.le_val. set (k := Z.min e1 e2).
  assert (0 < 2 ^ (k - b)) by (apply Z.pow_pos_nonneg; lia).
  replace (e1 - b) with ((e1 - k) + (k - b)) by lia.
  replace (e2 - b) with ((e2 - k) + (k - b)) by lia.
  rewrite !Z.pow_add_r by lia. rewrite !Z.mul_assoc.
  set (A := Zpos m1 * 2 ^ (e1 - k)). set (B := Zpos m2 * 2 ^ (e2 - k)).
  split; intros; nia.
Qed.

Lemma iter_xO m k : Zpos (Pos.iter xO m k) = Zpos m * 2 ^ Zpos k.
Proof.
  change (Pos.iter xO m k) with (shift_pos k m).
  rewrite shift_pos_correct, Zpower_pos_nat, Zpower_nat_Z, positive_nat_Z. lia.
Qed.

Lemma shl_align_spec m e e' :
  Zpos (shl_align m e e').1 = Zpos m * 2 ^ (e - (shl_align m e e').2)
  /\ (shl_align m e e').2 = Z.min e e'.
Proof.
  unfold shl_align. destruct (e' - e) as [|k|k] eqn:Hk; simpl.
  - rewrite Z.sub_diag. lia.
  - rewrite Z.sub_diag. lia.
  - rewrite iter_xO. split; [|lia]. f_equal. f_equal. lia.
Qed.

Lemma size_shift m k :
  0 <= k -> forall q, Zpos q = Zpos m * 2 ^ k -> Zpos (Pos.size q) = Zpos (Pos.size m) + k.
Proof.
  intros Hk q Hq. apply size_unique. rewrite Hq.
  pose proof (size_bounds m) as [Hlo Hhi].
  assert (0 < 2 ^ k) by (apply Z.pow_pos_nonneg; lia).
  replace (Zpos (Pos.size m) + k - 1) with (Zpos (Pos.size m) - 1 + k) by lia.
  rewrite !Z.pow_add_r by lia. nia.
Qed.

Lemma round_at_least mc ec M E :
  Zpos (Pos.size mc) = 53 -> -1074 <= ec ->
  F64.le_val mc ec M E ->
  F64.at_least mc ec (binary_round F64.prec F64.emax false M E) = true.
Proof.
  intros Hmc Hec Hle. unfold binary_round. rewrite digits2_pos_size.
  pose proof (le_val_digits _ _ _ _ Hmc Hle) as Hd.
  rewrite fexp_normal by lia.
  destruct (shl_align_spec M E (Zpos (Pos.size M) + E - 53)) as [Hmz Hez].
  destruct (shl_align M E (Zpos (Pos.size M) + E - 53)) as [mz ez]. simpl in Hmz, Hez.
  assert (Zpos (Pos.size mz) = Zpos (Pos.size M) + (E - ez)) as Hsz
    by (apply size_shift; [lia|done]).
  apply round_aux_at_least; [done..| |].
  - apply (le_val_iff (Z.min ez ec)); [lia..|].
    apply (le_val_iff (Z.min ez ec)) in Hle; [|lia..].
    rewrite Hmz. rewrite <- Z.mul_assoc, <- Z.pow_add_r by lia.
    by replace (E - ez + (ez - Z.min ez ec)) with (E - Z.min ez ec) by lia.
  - rewrite Hsz, fexp_normal by lia. lia.
Qed.

Lemma bounded_spec m e :
  bounded F64.prec F64.emax m e = true ->
  -1074 <= e <= 971 /\ Zpos (Pos.size m) <= 53 /\ (-1074 < e -> Zpos (Pos.size m) = 53).
Proof.
  unfold bounded, canonical_mantissa, fexp, emin, F64.prec, F64.emax.
  rewrite digits2_pos_size, andb_true_iff, Z.eqb_eq, Z.leb_le. lia.
Qed.

Lemma at_least_le_val mc ec m e :
  Zpos (Pos.size mc) = 53 -> -1074 <= ec ->
  F64.at_least mc ec (S754_finite false m e) = true -> F64.le_val mc ec m e.
Proof.
  intros Hmc Hec. simpl. rewrite andb_true_iff, orb_true_iff, andb_true_iff.
  rewrite Z.ltb_lt, Z.eqb_eq, Pos.leb_le. intros [Hb Hcmp].
  apply bounded_spec in Hb as (He & _ & Hnorm).
  apply (le_val_iff ec); [lia..|]. rewrite Z.sub_diag, Z.mul_1_r.
  destruct Hcmp as [Hlt|[-> Hle]].
  - pose proof (size_bounds mc) as [_ Hchi]. rewrite Hmc in Hchi.
    pose proof (size_bounds m) as [Hmlo _]. rewrite Hnorm in Hmlo by lia.
    simpl (53 - 1) in Hmlo.
    assert (2 ^ 1 <= 2 ^ (e - ec)) by (apply Z.pow_le_mono_r; lia).
    change (2 ^ 1) with 2 in *. change (2 ^ 53) with (2 * 2 ^ 52) in Hchi. nia.
  - rewrite Z.sub_diag. lia.
Qed.

Lemma size_ge_53 q : 2 ^ 52 <= Zpos q -> 53 <= Zpos (Pos.size q).
Proof.
  intros Hq. pose proof (size_bounds q) as [_ Hhi].
  assert (2 ^ 52 < 2 ^ Zpos (Pos.size q)) as Hlt by lia.
  apply pow2_lt_inv in Hlt; lia.
Qed.

Lemma fexp_ge k : k - 53 <= fexp F64.prec F64.emax k.
Proof. unfold fexp, emin, F64.prec, F64.emax. lia. Qed.

Lemma mul_hundred_at_least x :
  F64.at_least F64.sixty_percent.1 F64.sixty_percent.2 x = true ->
  F64.at_least F64.above_sixty.1 F64.above_sixty.2 (F64.mul x F64.hundred) = true.
Proof.
  change F64.hundred with (S754_finite false 7036874417766400 (-46)).
  destruct x as [s|[]| |[] mx ex]; try done. intros Hx.
  apply at_least_le_val in Hx; [|done..]. simpl in Hx.
  pose proof Hx as Hx'. unfold F64.mul, SFmul.
  change (xorb false false) with false.
  apply round_aux_at_least; [done|simpl; lia| |].
  - simpl. set (b := Z.min ex (-53)).
    apply (le_val_iff b) in Hx; [|lia..].
    apply (le_val_iff (b + -46)); [lia..|].
    rewrite Pos2Z.inj_mul.
    replace (ex + -46 - (b + -46)) with (ex - b) by lia.
    replace (-47 - (b + -46)) with (52 + (-53 - b)) by lia.
    rewrite Z.pow_add_r by lia.
    assert (0 < 2 ^ (-53 - b)) by (apply Z.pow_pos_nonneg; lia).
    change (2 ^ 52) with 4503599627370496. nia.
  - assert (53 <= Zpos (Pos.size (mx * 7036874417766400))).
    { apply size_ge_53. rewrite Pos2Z.inj_mul. change (2 ^ 52) with 4503599627370496. lia. }
    pose proof (fexp_ge (Zpos (Pos.size (mx * 7036874417766400)) + (ex + -46))). lia.
Qed.

Lemma ltb_threshold m e :
  F64.ltb (S754_finite false m e) distance_threshold = true ->
  e < -54 \/ (e = -54 /\ Zpos m < 7205759403792794).
Proof.
  change distance_threshold with (S754_finite false 7205759403792794 (-54)).
  unfold F64.ltb, SFltb, SFcompare.
  destruct (Z.compare_spec e (-54)) as [->|Hlt|Hgt]; [|by left|done].
  destruct (PosDef.Pos.compare_cont Eq m 7205759403792794) eqn:Hc; try discriminate.
  intros _. right. split; [reflexivity|]. exact Hc.
Qed.

Lemma sub_one_at_least d :
  F64.valid d = true ->
  F64.ltb d distance_threshold = true ->
  d <> S754_finite false 7205759403792793 (-54) ->
  F64.at_least F64.sixty_percent.1 F64.sixty_percent.2 (F64.sub F64.one d) = true.
Proof.
  change F64.one with (S754_finite false 4503599627370496 (-52)).
  destruct d as [s|[]| |[] m e]; intros Hvalid Hlt Hne.
  - destruct s; vm_compute; reflexivity.
  - vm_compute. reflexivity.
  - vm_compute in Hlt. discriminate.
  - vm_compute in Hlt. discriminate.
  - (* a negative distance *)
    apply bounded_spec in Hvalid as (He & Hsz & _).
    unfold F64.sub, SFsub.
    destruct (shl_align_spec 4503599627370496 (-52) (Z.min (-52) e)) as [Ha1 Hb1].
    destruct (shl_align_spec m e (Z.min (-52) e)) as [Ha2 Hb2].
    set (a1 := (shl_align 4503599627370496 (-52) (Z.min (-52) e)).1) in *.
    set (a2 := (shl_align m e (Z.min (-52) e)).1) in *.
    rewrite Hb1 in Ha1. rewrite Hb2 in Ha2.
    replace (Z.min (-52) (Z.min (-52) e)) with (Z.min (-52) e) in Ha1 by lia.
    change (cond_Zopp false (Zpos a1) - cond_Zopp true (Zpos a2)) with (Zpos (a1 + a2)).
    apply round_at_least; [done|simpl; lia|]. simpl.
    set (ez := Z.min (-52) e) in *.
    apply (le_val_iff (ez - 1)); [lia..|].
    replace (-53 - (ez - 1)) with (-52 - ez) by lia.
    replace (ez - (ez - 1)) with 1 by lia.
    assert (0 < 2 ^ (-52 - ez)) by (apply Z.pow_pos_nonneg; lia).
    rewrite Pos2Z.inj_add, Ha1. change (2 ^ 1) with 2. lia.
  - (* a positive distance below the threshold *)
    apply bounded_spec in Hvalid as (He & Hsz & _).
    apply ltb_threshold in Hlt.
    pose proof (size_bounds m) as [_ Hm].
    assert (Zpos m < 2 ^ 53) as Hm53.
    { eapply Z.lt_le_trans; [exact Hm|]. apply Z.pow_le_mono_r; lia. }
    change (2 ^ 53) with 9007199254740992 in Hm53.
    unfold F64.sub, SFsub.
    destruct (shl_align_spec 4503599627370496 (-52) (Z.min (-52) e)) as [Ha1 Hb1].
    destruct (shl_align_spec m e (Z.min (-52) e)) as [Ha2 Hb2].
    set (a1 := (shl_align 4503599627370496 (-52) (Z.min (-52) e)).1) in *.
    set (a2 := (shl_align m e (Z.min (-52) e)).1) in *.
    rewrite Hb1 in Ha1. rewrite Hb2 in Ha2.
    replace (Z.min (-52) (Z.min (-52) e)) with e in Ha1 by lia.
    replace (Z.min e (Z.min (-52) e)) with e in Ha2 by lia.
    replace (Z.min (-52) e) with e by lia.
    rewrite Z.sub_diag, Z.mul_1_r in Ha2.
    replace (-52 - e) with (2 + (-54 - e)) in Ha1 by lia.
    rewrite Z.pow_add_r in Ha1 by lia. change (2 ^ 2) with 4 in Ha1.
    assert (1 <= 2 ^ (-54 - e)) as Hp.
    { change 1 with (2 ^ 0). apply Z.pow_le_mono_r; lia. }
    simpl cond_Zopp.
    destruct (Zpos a1 - Zpos a2) as [|M|M] eqn:HM; [lia| |lia].
    apply round_at_least; [done|simpl; lia|]. simpl.
    apply (le_val_iff e); [lia..|]. rewrite Z.sub_diag, Z.mul_1_r.
    replace (-53 - e) with (1 + (-54 - e)) by lia.
    rewrite Z.pow_add_r by lia. change (2 ^ 1) with 2.
    destruct Hlt as [Hlt|[-> Hlt]].
    + assert (2 <= 2 ^ (-54 - e)).
      { change 2 with (2 ^ 1) at 1. apply Z.pow_le_mono_r; lia. }
      nia.
    + change (2 ^ (-54 - -54)) with 1 in *.
      assert (Zpos m <> 7205759403792793) by (intros [= ->]; done).
      lia.
Qed.

Lemma max0_at_least mc ec x : F64.at_least mc ec x = true -> max0 x = x.
Proof. by destruct x as [s|[]| |[] m e]. Qed.

Lemma confidence_at_least d :
  F64.valid d = true ->
  F64.ltb d distance_threshold = true ->
  F64.at_least F64.above_sixty.1 F64.above_sixty.2 (confidence_value d) = true.
Proof.
  intros Hvalid Hlt.
  assert (d = S754_finite false 7205759403792793 (-54)
          \/ d <> S754_finite false 7205759403792793 (-54)) as [->|Hne].
  { destruct d as [s|s| |s m e]; try (by right).
    destruct s; [by right|].
    destruct (Pos.eq_dec m 7205759403792793%positive) as [->|Hm],
             (Z.eq_dec e (-54)) as [->|He]; [by left|right; congruence..]. }
  - vm_compute. reflexivity.
  - unfold confidence_value.
    pose proof (sub_one_at_least d Hvalid Hlt Hne) as Hsub.
    rewrite (max0_at_least _ _ _ Hsub). by apply mul_hundred_at_least.
Qed.

Lemma at_least_ltb_sixty x :
  F64.at_least F64.above_sixty.1 F64.above_sixty.2 x = true -> F64.ltb (F64.of_Z 60) x = true.
Proof.
  change (F64.of_Z 60) with (S754_finite false 8444249301319680 (-47)).
  destruct x as [s|[]| |[] m e]; try done. simpl.
  rewrite andb_true_iff, orb_true_iff, andb_true_iff, Z.ltb_lt, Z.eqb_eq, Pos.leb_le.
  intros [_ Hcmp]. unfold F64.ltb, SFltb, SFcompare.
  destruct (Z.compare_spec (-47) e) as [<-|Hlt|Hgt]; [|done|lia].
  destruct Hcmp as [?|[_ Hle]]; [lia|].
  destruct (PosDef.Pos.compare_cont Eq 8444249301319680 m) eqn:Hc; [|done|].
  - apply Pos.compare_eq in Hc. lia.
  - assert (Zpos m < 8444249301319680) by (apply Z.gt_lt; exact Hc). lia.
Qed.

Lemma round_half_even_ge num den : num / den <= F64.round_half_even num den.
Proof.
  unfold F64.round_half_even.
  destruct (2 * (num mod den) ?= den); [destruct (Z.even _)|..]; lia.
Qed.

Lemma at_least_hundredths m e :
  F64.at_least F64.above_sixty.1 F64.above_sixty.2 (S754_finite false m e) = true ->
  6000 <= F64.hundredths m e.
Proof.
  simpl. rewrite andb_true_iff, orb_true_iff, andb_true_iff, Z.ltb_lt, Z.eqb_eq, Pos.leb_le.
  intros [Hb Hcmp]. apply bounded_spec in Hb as (He & _ & Hnorm).
  assert (-47 < e -> 2 ^ 52 <= Zpos m) as Hbig.
  { intros. pose proof (size_bounds m) as [Hlo _]. by rewrite Hnorm in Hlo by lia. }
  change (2 ^ 52) with 4503599627370496 in Hbig.
  unfold F64.hundredths. destruct e as [|p|p].
  - lia.
  - assert (1 <= 2 ^ Zpos p) by (change 1 with (2 ^ 0); apply Z.pow_le_mono_r; lia). nia.
  - etransitivity; [|apply round_half_even_ge].
    assert (0 < 2 ^ Zpos p) by (by apply Z.pow_pos_nonneg).
    apply Z.div_le_lower_bound; [done|].
    destruct Hcmp as [Hlt|[Heq Hle]].
    + assert (2 ^ Zpos p <= 2 ^ 46) by (apply Z.pow_le_mono_r; lia).
      change (2 ^ 46) with 70368744177664 in *. lia.
    + injection Heq as ->. change (2 ^ 47) with 140737488355328. lia.
Qed.

(** ** The two-decimal text

    The formatting of the model against the specification's wording: the
    number of hundredths is the nearest one, ties to even, and the text is
    its decimal numeral with two digits after the point. *)

Lemma round_half_even_nearest num den :
  0 < den ->
  2 * Z.abs (num - F64.round_half_even num den * den) <= den
  /\ (2 * Z.abs (num - F64.round_half_even num den * den) = den ->
      Z.even (F64.round_half_even num den) = true).
Proof.
  intros Hden. unfold F64.round_half_even.
  pose proof (Z.div_mod num den ltac:(lia)) as Hdm.
  pose proof (Z.mod_pos_bound num den Hden) as Hr.
  set (q := num / den) in *. set (r := num mod den) in *.
  assert (num - q * den = r) as Hq by lia.
  assert (num - (q + 1) * den = r - den) as Hq1 by lia.
  destruct (Z.compare_spec (2 * r) den) as [Heq|Hlt|Hgt].
  - destruct (Z.even q) eqn:Hev.
    + rewrite Hq. split; [lia|done].
    + rewrite Hq1. split; [lia|]. intros _.
      rewrite Z.even_add, Hev. reflexivity.
  - rewrite Hq. split; lia.
  - rewrite Hq1. split; lia.
Qed.

Lemma hundredths_nearest m e : F64.spec_nearest_hundredths m e (F64.hundredths m e).
Proof.
  unfold F64.spec_nearest_hundredths, F64.hundredths. destruct e as [|p|p].
  - cbn [Z.opp Z.max Z.compare Z.add]. rewrite Z.pow_0_r, !Z.mul_1_r, Z.sub_diag.
    cbn [Z.abs Z.mul]. split; [lia|discriminate].
  - replace (Z.max 0 (- Zpos p)) with 0 by lia.
    rewrite Z.add_0_r, Z.pow_0_r, Z.mul_1_r, Z.sub_diag.
    cbn [Z.abs Z.mul]. split; [lia|discriminate].
  - replace (Z.max 0 (- Zneg p)) with (Zpos p) by lia.
    replace (Zneg p + Zpos p) with 0 by lia. rewrite Z.pow_0_r, Z.mul_1_r.
    apply round_half_even_nearest. by apply Z.pow_pos_nonneg.
Qed.

Lemma two_digits_spec z :
  0 <= z < 100 ->
  F64.two_digits z
  = String (F64.spec_digit (z / 10)) (String (F64.spec_digit (z mod 10)) "").
Proof.
  intros Hz.
  assert (forallb (fun k : nat =>
            String.eqb (F64.two_digits (Z.of_nat k))
              (String (F64.spec_digit (Z.of_nat k / 10))
                 (String (F64.spec_digit (Z.of_nat k mod 10)) "")))
            (seq 0 100) = true) as Hall by (vm_compute; reflexivity).
  rewrite forallb_forall in Hall.
  specialize (Hall (Z.to_nat z)). rewrite Z2Nat.id in Hall by lia.
  apply String.eqb_eq, Hall, in_seq. lia.
Qed.

Lemma fixed2_spec n : F64.fixed2 n = F64.spec_two_decimals n.
Proof.
  unfold F64.fixed2, F64.spec_two_decimals, F64.digits.
  pose proof (Z.mod_pos_bound n 100 ltac:(lia)) as Hz.
  rewrite (two_digits_spec _ Hz).
  assert ((n mod 100) mod 10 = n mod 10) as ->; [|done].
  rewrite (Z.div_mod n 100) at 2 by lia.
  replace (100 * (n / 100) + n mod 100) with (n mod 100 + (10 * (n / 100)) * 10) by lia.
  symmetry. apply Z_mod_plus_full.
Qed.

Section Properties.

Context `{FS : FileSystem} `{JS : json.API} `{FR : !face_recognition.API}.

Implicit Types (s : fs_state) (file : FileStorage) (req : request).

(** ** The control flow *)

Lemma bind_next {A B} (m : M A) (f : A → M B) s s' l a :
  m s = (s', l, Next a) →
  (m ≫= f) s = ((f a s').1.1, l ++ (f a s').1.2, (f a s').2).
Proof.
  intros Hm. unfold mbind, M_bind. rewrite Hm.
  by destruct (f a s') as [[s'' l'] r].
Qed.

Ltac step := unfold mbind, M_bind, mret, M_ret, logger, return_, raise, read_fs; simpl.

(** ** The loops over the faces *)

Lemma bulk_faces_loop_eq image_file image_id bulk_encodings results ie s :
  bulk_faces_loop image_file image_id bulk_encodings results ie s
  = (s, match_lines (pair_matches image_file image_id ie bulk_encodings),
     Next (results ++ pair_matches image_file image_id ie bulk_encodings)).
Proof.
  unfold bulk_faces_loop, pair_matches, match_lines.
  generalize (enumerate bulk_encodings) as l. intros l. revert results.
  induction l as [|je l IH]; intros results; simpl.
  - by rewrite app_nil_r.
  - destruct (compare_pair _ _ _ _ _ _) as [r|] eqn:Hr.
    + step. rewrite IH. simpl. by rewrite <- app_assoc.
    + step. by rewrite IH.
Qed.

Lemma faces_loop_eq image_file image_id single_encodings bulk_encodings results s :
  faces_loop image_file image_id single_encodings bulk_encodings results s
  = (s, match_lines (face_matches image_file image_id single_encodings bulk_encodings),
     Next (results ++ face_matches image_file image_id single_encodings bulk_encodings)).
Proof.
  unfold faces_loop, face_matches, match_lines.
  generalize (enumerate single_encodings) as l. intros l. revert results.
  induction l as [|ie l IH]; intros results.
  - simpl. by rewrite app_nil_r.
  - rewrite bind_cons. cbn [foldM].
    erewrite bind_next by apply bulk_faces_loop_eq.
    rewrite IH. cbn [fst snd]. by rewrite fmap_app, <- app_assoc.
Qed.

Lemma face_matches_nil image_file image_id single_encodings :
  face_matches image_file image_id single_encodings [] = [].
Proof.
  unfold face_matches. generalize (enumerate single_encodings) as l.
  induction l as [|ie l IH]; [done|]. by rewrite bind_cons, IH.
Qed.

(** ** The loop over the candidates *)

Lemma candidate_eq single_encodings results image_file image_id s :
  ∃ l, candidate single_encodings results (PStr image_file, image_id) s
       = (s, l, Next (results ++ candidate_matches s single_encodings image_file image_id)).
Proof.
  unfold candidate, candidate_matches, encode_file, encodings_at. simpl. step.
  destruct (os_path_exists s _); simpl.
  - destruct (face_recognition.load_image_file s _) as [e|img]; simpl.
    + eexists. by rewrite app_nil_r.
    + destruct (face_recognition.face_encodings img) as [e|[|b bs]]; simpl.
      * eexists. by rewrite app_nil_r.
      * eexists. by rewrite face_matches_nil, app_nil_r.
      * rewrite faces_loop_eq. simpl. by eexists.
  - eexists. by rewrite app_nil_r.
Qed.

Lemma candidate_not_str single_encodings results k image_id s :
  (∀ image_file, k ≠ PStr image_file) →
  candidate single_encodings results (k, image_id) s = (s, [], Return (Uncaught TypeError)).
Proof. intros Hk. destruct k; try done. by destruct (Hk s0). Qed.

Lemma foldM_candidate_eq single_encodings selected_photos results s :
  ∃ l, foldM (candidate single_encodings) selected_photos results s
       = (s, l, match all_matches s single_encodings selected_photos with
                | inr rs => Next (results ++ rs)
                | inl e => Return (Uncaught e)
                end).
Proof.
  revert results. induction selected_photos as [|[k v] sel IH]; intros results; simpl.
  - eexists. step. by rewrite app_nil_r.
  - destruct k as [| | | |image_file| |];
      try (eexists; unfold mbind, M_bind; by rewrite candidate_not_str).
    destruct (candidate_eq single_encodings results image_file v s) as [l Hl].
    destruct (IH (results ++ candidate_matches s single_encodings image_file v)) as [l' Hl'].
    exists (l ++ l'). erewrite bind_next by exact Hl. rewrite Hl'. simpl.
    destruct (all_matches s single_encodings sel); [done|].
    by rewrite app_assoc.
Qed.

Lemma match_candidates_eq single_encodings selected_photos s :
  ∃ l, match_candidates single_encodings selected_photos s
       = (s, l, match all_matches s single_encodings selected_photos with
                | inr rs => Next rs
                | inl e => Return (Uncaught e)
                end).
Proof. apply (foldM_candidate_eq _ _ []). Qed.

(** ** The handler as a whole *)

Lemma validate_any_state req s s' :
  validate req s = (s, (validate req s').1.2, (validate req s').2).
Proof.
  unfold validate.
  destruct (files req !! "file"%string) as [file|],
    (form req !! "json_data"%string) as [json_data|]; try done.
  destruct (String.eqb _ _); [done|].
  destruct (negb _); [done|].
  by destruct (parse_photos json_data) as [[]|].
Qed.

Lemma process_eq file selected_photos s :
  ∃ l, run (process file selected_photos) s
       = ((after_process file selected_photos s).1, l,
          (after_process file selected_photos s).2).
Proof.
  unfold run, process, after_process, saved, moved, save_upload, encode_upload,
    encode_file, move_upload, write_fs.
  fold (encodings_at).
  step.
  destruct (file_save s _ _) as [s1 [e|]]; simpl; [by eexists|].
  fold (encodings_at s1 (single_image_path file)).
  destruct (encodings_at s1 _) as [e|[|a single_encodings]]; simpl; [by eexists..|].
  destruct (match_candidates_eq (a :: single_encodings) selected_photos s1) as [l Hl].
  rewrite Hl.
  destruct (all_matches s1 _ _) as [e|results]; simpl; [by eexists|].
  destruct (shutil_move s1 _ _) as [s2 [e|]]; simpl; [by eexists|].
  unfold respond. destruct results; simpl; by eexists.
Qed.

Lemma upload_and_match_eq req s :
  ∃ l, upload_and_match req s
       = match (validate req s).2 with
         | Return o => (s, l, o)
         | Next fp => ((after_process fp.1 fp.2 s).1, l, (after_process fp.1 fp.2 s).2)
         end.
Proof.
  unfold upload_and_match, run. step.
  rewrite (validate_any_state req s s).
  destruct (validate req s) as [[s' l] [[file sel]|o]]; simpl; [|by eexists].
  destruct (process_eq file sel s) as [l' Hl']. unfold run in Hl'.
  destruct (process file sel s) as [[s2 l2] [o|o]]; simpl in *;
    injection Hl' as Hs _ Ho; rewrite <- Hs, <- Ho; by eexists.
Qed.

Lemma validate_next req s file selected_photos :
  (validate req s).2 = Next (file, selected_photos) →
  ∃ l, upload_and_match req s
       = ((after_process file selected_photos s).1, l,
          (after_process file selected_photos s).2).
Proof.
  intros Hv. destruct (upload_and_match_eq req s) as [l Hl].
  rewrite Hv in Hl. by exists l.
Qed.

Lemma rejected_validate req s :
  rejected req → ∃ msg, (validate req s).2 = Return (Response (Error msg) 400).
Proof.
  unfold rejected, validate.
  destruct (files req !! "file"%string) as [file|],
    (form req !! "json_data"%string) as [json_data|]; simpl;
    try (intros _; by eexists).
  destruct (String.eqb_spec (filename file) ""); [intros _; by eexists|].
  destruct (allowed_extension (filename file)) eqn:Hext; simpl; [|intros _; by eexists].
  intros [?|[?|[(file' & [= <-] & [?|?])|(jd & [= <-] & [Hp|[k Hp]])]]];
    try done; try congruence; rewrite Hp; by eexists.
Qed.

(** ** Validation *)

(** Whenever the validation ends the request, with a 400 answer or with an
    exception, the handler leaves the file system as it found it and gives
    that outcome, whatever the state is. *)
Lemma validation_exit_leaves_state req s o :
  (validate req s).2 = Return o →
  ∀ s', ∃ l, upload_and_match req s' = (s', l, o).
Proof.
  intros Hv s'. destruct (upload_and_match_eq req s') as [l Hl]. exists l.
  rewrite Hl. rewrite (validate_any_state req s' s). simpl. by rewrite Hv.
Qed.

Lemma add_photos_of_objects items acc :
  Forall (λ item, ∃ d, item = PDict d ∧ is_Some (dict_get d "name")
                       ∧ is_Some (dict_get d "id")) items →
  (∃ sel, add_photos acc items = inr sel) ∨ add_photos acc items = inl TypeError.
Proof.
  intros Hitems. revert acc.
  induction Hitems as [|item items (d & -> & [k Hk] & [v Hv]) _ IH]; intros acc; simpl.
  - left. by eexists.
  - unfold add_photo. simpl. rewrite Hk, Hv. destruct (hashable k); [apply IH|by right].
Qed.

(** What the handler rejects at its fourth check also fails the fourth
    check of the specification. *)
Lemma rejected_fails_spec req : rejected req → spec_fails_validation req.
Proof.
  intros [H|[H|[H|(json_data & Hjson & Hparse)]]];
    [by left|by right; left|by right; right; left|].
  do 3 right. exists json_data. split; [done|].
  intros (items & Hloads & Hitems). unfold parse_photos in Hparse.
  rewrite Hloads in Hparse. unfold photo_map in Hparse. simpl in Hparse.
  destruct (add_photos_of_objects items [] Hitems) as [[sel Hsel]|Hraise];
    rewrite ?Hsel, ?Hraise in Hparse; by destruct Hparse as [?|[k ?]].
Qed.



(** C3, at the input where the code departs from it: when an entry of the
    decoded array is not an object, the subscript [item['name']] raises
    [TypeError], which the [except] clause does not list; the exception
    leaves the handler instead of the 400 answer. *)
Theorem C3_non_object_entry_is_uncaught req s file json_data entries v :
  files req !! "file"%string = Some file →
  form req !! "json_data"%string = Some json_data →
  filename file ≠ ""%string →
  allowed_extension (filename file) = true →
  json.loads json_data = inr (PList (v :: entries)) →
  (∀ d, v ≠ PDict d) →
  ∃ l, upload_and_match req s = (s, l, Uncaught TypeError).
Proof.
  intros Hfile Hjson Hname Hext Hloads Hv.
  destruct (upload_and_match_eq req s) as [l Hl]. exists l. rewrite Hl.
  unfold validate. rewrite Hfile, Hjson.
  destruct (String.eqb_spec (filename file) ""); [done|].
  rewrite Hext. simpl. unfold parse_photos. rewrite Hloads.
  assert (photo_map (PList (v :: entries)) = inl TypeError) as ->; [|done].
  unfold photo_map. simpl. unfold add_photo.
  destruct v; try done. by destruct (Hv items).
Qed.

(** ** Staging and relocation *)

(** C4: when the request passes the validation, the save succeeds and the
    saved image shows no face, the answer is 400 with the message below
    and the file system is the one the save left: the upload is not
    moved. *)
Theorem C4_no_face_is_400_and_not_moved req s file selected_photos :
  (validate req s).2 = Next (file, selected_photos) →
  (saved file s).2 = None →
  encodings_at (saved file s).1 (single_image_path file) = inr [] →
  ∃ l, upload_and_match req s
       = ((saved file s).1, l,
          Response (Error "No face detected in the uploaded image") 400).
Proof.
  intros Hv Hsave Henc. destruct (validate_next req s _ _ Hv) as [l Hl].
  exists l. rewrite Hl. unfold after_process. by rewrite Hsave, Henc.
Qed.

Lemma match_candidates_next single_encodings selected_photos s results :
  (match_candidates single_encodings selected_photos s).2 = Next results →
  all_matches s single_encodings selected_photos = inr results.
Proof.
  destruct (match_candidates_eq single_encodings selected_photos s) as [l ->].
  simpl. destruct (all_matches _ _ _); [done|]. by intros [= ->].
Qed.

(** C5: when the loop over the candidates has run to its end, the upload
    is moved from [single/<filename>] to [processed/<filename>], both below
    the base directory, whatever the results are; a failing move is a 500,
    and otherwise the answer is 200 with the matches, or 200 "No match
    found" when there are none.  The paths are written out: the file system
    that the handler leaves is the one that this move leaves. *)
Theorem C5_moved_after_the_loop req s file selected_photos single_encodings results :
  (validate req s).2 = Next (file, selected_photos) →
  (file_save s (path_join (path_join BASE_DIR "single") (filename file))
             (content file)).2 = None →
  encodings_at
    (file_save s (path_join (path_join BASE_DIR "single") (filename file))
               (content file)).1
    (path_join (path_join BASE_DIR "single") (filename file))
  = inr single_encodings →
  single_encodings ≠ [] →
  (match_candidates single_encodings selected_photos
     (file_save s (path_join (path_join BASE_DIR "single") (filename file))
                (content file)).1).2
  = Next results →
  ∃ l, upload_and_match req s
       = ((shutil_move
             (file_save s (path_join (path_join BASE_DIR "single") (filename file))
                        (content file)).1
             (path_join (path_join BASE_DIR "single") (filename file))
             (path_join (path_join BASE_DIR "processed") (filename file))).1,
          l,
          match (shutil_move
                   (file_save s (path_join (path_join BASE_DIR "single") (filename file))
                              (content file)).1
                   (path_join (path_join BASE_DIR "single") (filename file))
                   (path_join (path_join BASE_DIR "processed") (filename file))).2
          with
          | Some e => Response (Error ("Failed to move processed image: " ++ e)) 500
          | None =>
              match results with
              | [] => Response (Message "No match found" (filename file)) 200
              | _ :: _ =>
                  Response (Matches "Success! Matches found." results (filename file)) 200
              end
          end).
Proof.
  intros Hv Hsave Henc Hne Hloop. destruct (validate_next req s _ _ Hv) as [l Hl].
  exists l. rewrite Hl. unfold after_process, moved, saved, processed_image_path,
    single_image_path, PROCESSED_FOLDER, SINGLE_FOLDER.
  rewrite Hsave, Henc.
  destruct single_encodings as [|a single_encodings]; [done|].
  rewrite (match_candidates_next _ _ _ _ Hloop).
  by destruct (shutil_move _ _ _) as [s2 [e|]].
Qed.

(** ** Candidates that are passed over *)

Lemma skipped_no_matches single_encodings image_file image_id s :
  skipped s image_file →
  candidate_matches s single_encodings image_file image_id = [].
Proof.
  unfold skipped, candidate_matches. intros [->|[[e ->]| ->]]; [done| |].
  - by destruct (os_path_exists s _).
  - destruct (os_path_exists s _); [|done]. apply face_matches_nil.
Qed.

Lemma all_matches_skip single_encodings before image_file image_id after s :
  skipped s image_file →
  all_matches s single_encodings (before ++ (PStr image_file, image_id) :: after)
  = all_matches s single_encodings (before ++ after).
Proof.
  intros Hskip. induction before as [|[k v] before IH]; simpl.
  - rewrite (skipped_no_matches _ _ _ _ Hskip).
    by destruct (all_matches s single_encodings after).
  - destruct k; try done. by rewrite IH.
Qed.

(** C6: a candidate whose bulk file is missing, cannot be loaded or encoded,
    or shows no face adds nothing and ends nothing: its iteration hands on
    the results it received, and the request is answered, and leaves the
    file system, as the request without that candidate is. *)
Theorem C6_soft_failures_are_skipped
    req req' s file before after image_file image_id single_encodings results :
  skipped (saved file s).1 image_file →
  (validate req s).2 = Next (file, before ++ (PStr image_file, image_id) :: after) →
  (validate req' s).2 = Next (file, before ++ after) →
  (∃ l, candidate single_encodings results (PStr image_file, image_id) (saved file s).1
        = ((saved file s).1, l, Next results))
  ∧ (upload_and_match req s).1.1 = (upload_and_match req' s).1.1
  ∧ (upload_and_match req s).2 = (upload_and_match req' s).2.
Proof.
  intros Hskip Hv Hv'. split.
  - destruct (candidate_eq single_encodings results image_file image_id (saved file s).1)
      as [l Hl].
    exists l. rewrite Hl. by rewrite (skipped_no_matches _ _ _ _ Hskip), app_nil_r.
  - destruct (validate_next req s _ _ Hv) as [l ->].
    destruct (validate_next req' s _ _ Hv') as [l' ->]. simpl.
    assert (after_process file (before ++ (PStr image_file, image_id) :: after) s
            = after_process file (before ++ after) s) as ->; [|done].
    unfold after_process.
    destruct (saved file s).2; [done|].
    destruct (encodings_at _ _) as [e|[|a single]]; [done..|].
    by rewrite (all_matches_skip _ _ _ _ _ _ Hskip).
Qed.

(** ** The match predicate *)

Lemma elem_of_enumerate {A} (l : list A) i x : (i, x) ∈ enumerate l ↔ l !! i = Some x.
Proof.
  unfold enumerate. rewrite elem_of_lookup_imap. split.
  - by intros (j & y & [= -> ->] & Hy).
  - intros Hx. by exists i, x.
Qed.

Lemma elem_of_face_matches image_file image_id single_encodings bulk_encodings r :
  r ∈ face_matches image_file image_id single_encodings bulk_encodings
  ↔ ∃ i se j be,
      single_encodings !! i = Some se ∧ bulk_encodings !! j = Some be
      ∧ compare_pair image_file image_id i se j be = Some r.
Proof.
  unfold face_matches, pair_matches. rewrite list_elem_of_bind. split.
  - intros ([i se] & Hr & Hi). apply list_elem_of_omap in Hr as ([j be] & Hj & Hr).
    exists i, se, j, be. by rewrite <- !elem_of_enumerate.
  - intros (i & se & j & be & Hi & Hj & Hr). exists (i, se). split.
    + apply list_elem_of_omap. exists (j, be). by rewrite elem_of_enumerate.
    + by apply elem_of_enumerate.
Qed.

Lemma compare_pair_Some image_file image_id i se j be r :
  compare_pair image_file image_id i se j be = Some r ↔
    face_recognition.compare_faces be se tolerance = true
    ∧ F64.ltb (face_recognition.face_distance be se) distance_threshold = true
    ∧ r = {| uploaded_face_index := i;
             matched_face_index_in_bulk := j;
             matched_file := image_file;
             matched_id := image_id;
             confidence := confidence_text (face_recognition.face_distance be se);
             face_distance := face_recognition.face_distance be se |}.
Proof.
  unfold compare_pair.
  destruct (face_recognition.compare_faces be se tolerance),
    (F64.ltb (face_recognition.face_distance be se) distance_threshold); simpl;
    split; try (by intros [= <-]); try (by intros (? & ? & ->)); by intros (? & ? & ?).
Qed.

(** C1: for a candidate whose bulk image was loaded, the pair of the
    uploaded face [i] and the bulk face [j] is recorded exactly when the
    library's comparison at tolerance 0.5 holds and the distance is
    strictly below 0.4; a pair that only passes the comparison is not
    recorded. *)
Theorem C1_recorded_iff_match_and_distance
    single_encodings results image_file image_id s bulk_encodings :
  os_path_exists s (path_join BULK_FOLDER image_file) = true →
  encodings_at s (path_join BULK_FOLDER image_file) = inr bulk_encodings →
  tolerance = F64.of_decimal 5 1 ∧ distance_threshold = F64.of_decimal 4 1 ∧
  ∃ l new,
    candidate single_encodings results (PStr image_file, image_id) s
    = (s, l, Next (results ++ new))
    ∧ ∀ i j se be,
        single_encodings !! i = Some se → bulk_encodings !! j = Some be →
        ((∃ r, r ∈ new ∧ uploaded_face_index r = i ∧ matched_face_index_in_bulk r = j)
         ↔ face_recognition.compare_faces be se tolerance = true
           ∧ F64.ltb (face_recognition.face_distance be se) distance_threshold = true)
        ∧ (F64.ltb (face_recognition.face_distance be se) distance_threshold = false →
           ¬ ∃ r, r ∈ new ∧ uploaded_face_index r = i ∧ matched_face_index_in_bulk r = j).
Proof.
  intros Hex Henc. do 2 (split; [done|]).
  destruct (candidate_eq single_encodings results image_file image_id s) as [l Hl].
  exists l, (candidate_matches s single_encodings image_file image_id).
  split; [done|]. unfold candidate_matches. rewrite Hex, Henc.
  intros i j se be Hi Hj.
  assert ((∃ r, r ∈ face_matches image_file image_id single_encodings bulk_encodings
                ∧ uploaded_face_index r = i ∧ matched_face_index_in_bulk r = j)
          ↔ face_recognition.compare_faces be se tolerance = true
            ∧ F64.ltb (face_recognition.face_distance be se) distance_threshold = true)
    as Hiff.
  { split.
    - intros (r & Hr & <- & <-).
      apply elem_of_face_matches in Hr as (i' & se' & j' & be' & Hi' & Hj' & Hr).
      apply compare_pair_Some in Hr as (Hc & Hd & ->). simpl in *.
      rewrite Hi in Hi'. rewrite Hj in Hj'. by simplify_eq.
    - intros [Hc Hd]. eexists. split.
      + apply elem_of_face_matches. exists i, se, j, be. repeat split; [done..|].
        by apply compare_pair_Some.
      + done. }
  split; [done|]. intros Hd. rewrite Hiff. intros [_ Hd']. congruence.
Qed.

Lemma elem_of_all_matches single_encodings selected_photos s results r :
  all_matches s single_encodings selected_photos = inr results →
  r ∈ results →
  ∃ image_file image_id i se j be,
    (PStr image_file, image_id) ∈ selected_photos
    ∧ single_encodings !! i = Some se
    ∧ compare_pair image_file image_id i se j be = Some r.
Proof.
  revert results. induction selected_photos as [|[k v] sel IH]; intros results; simpl.
  - intros [= <-] Hr. by apply elem_of_nil in Hr.
  - destruct k as [| | | |image_file| |]; try done.
    destruct (all_matches s single_encodings sel) as [e|rs]; [done|].
    intros [= <-] Hr. apply elem_of_app in Hr as [Hr|Hr].
    + unfold candidate_matches in Hr.
      destruct (os_path_exists s _); [|by apply elem_of_nil in Hr].
      destruct (encodings_at s _) as [e|bulk]; [by apply elem_of_nil in Hr|].
      apply elem_of_face_matches in Hr as (i & se & j & be & Hi & Hj & Hr).
      exists image_file, v, i, se, j, be. split; [left|done].
    + destruct (IH rs eq_refl Hr) as (f & id & i & se & j & be & Hin & Hrest).
      exists f, id, i, se, j, be. split; [by right|done].
Qed.

(** The matches of a 200 answer come from the loop. *)
Lemma matches_of_response req s s' l message matches uploaded status :
  upload_and_match req s = (s', l, Response (Matches message matches uploaded) status) →
  ∀ r, r ∈ matches →
    ∃ image_file image_id i se j be,
      compare_pair image_file image_id i se j be = Some r.
Proof.
  intros Hrun r Hr. destruct (upload_and_match_eq req s) as [l' Hl'].
  rewrite Hrun in Hl'. revert Hl'. unfold validate.
  destruct (files req !! "file"%string) as [file|],
    (form req !! "json_data"%string) as [json_data|]; try done.
  destruct (String.eqb _ _); [done|].
  destruct (negb _); [done|].
  destruct (parse_photos json_data) as [[]|sel]; try done. simpl.
  unfold after_process.
  destruct (saved file s).2; [done|].
  destruct (encodings_at _ _) as [e|[|a single]]; [done..|].
  destruct (all_matches _ _ sel) as [e|results] eqn:Hall; [done|].
  destruct (moved file _).2; [done|].
  destruct results as [|r0 results]; [done|]. intros [= _ _ _ -> _].
  destruct (elem_of_all_matches _ _ _ _ r Hall Hr)
    as (f & id & i & se & j & be & _ & _ & Hpair).
  by exists f, id, i, se, j, be.
Qed.

(** ** The reported confidence *)

Lemma elem_of_candidate_matches single_encodings image_file image_id s r :
  r ∈ candidate_matches s single_encodings image_file image_id →
  ∃ bulk_encodings i se j be,
    os_path_exists s (path_join BULK_FOLDER image_file) = true
    ∧ encodings_at s (path_join BULK_FOLDER image_file) = inr bulk_encodings
    ∧ single_encodings !! i = Some se ∧ bulk_encodings !! j = Some be
    ∧ compare_pair image_file image_id i se j be = Some r.
Proof.
  unfold candidate_matches.
  destruct (os_path_exists s _); [|by intros ?%elem_of_nil].
  destruct (encodings_at s _) as [e|bulk]; [by intros ?%elem_of_nil|].
  intros (i & se & j & be & Hi & Hj & Hr)%elem_of_face_matches.
  by exists bulk, i, se, j, be.
Qed.

Lemma elem_of_all_matches_inv single_encodings selected_photos s results r :
  all_matches s single_encodings selected_photos = inr results →
  r ∈ results →
  ∃ image_file image_id,
    (PStr image_file, image_id) ∈ selected_photos
    ∧ r ∈ candidate_matches s single_encodings image_file image_id.
Proof.
  revert results. induction selected_photos as [|[k v] sel IH]; intros results; simpl.
  - intros [= <-] Hr. by apply elem_of_nil in Hr.
  - destruct k as [| | | |image_file| |]; try done.
    destruct (all_matches s single_encodings sel) as [e|rs]; [done|].
    intros [= <-] Hr. apply elem_of_app in Hr as [Hr|Hr].
    + exists image_file, v. split; [left|done].
    + destruct (IH rs eq_refl Hr) as (f & id & Hin & Hrest).
      exists f, id. split; [by right|done].
Qed.

Lemma validate_return req s o :
  (validate req s).2 = Return o →
  (∃ msg, o = Response (Error msg) 400) ∨ (∃ e, o = Uncaught e).
Proof.
  unfold validate.
  destruct (files req !! "file"%string) as [file|],
    (form req !! "json_data"%string) as [json_data|]; simpl;
    try (intros [= <-]; left; by eexists).
  destruct (String.eqb _ _); simpl; [intros [= <-]; left; by eexists|].
  destruct (negb _); simpl; [intros [= <-]; left; by eexists|].
  destruct (parse_photos json_data) as [[]|sel]; simpl; intros [= <-];
    first [left; by eexists|right; by eexists].
Qed.

(** What a 200 answer with matches tells about the run. *)
Lemma matches_answer_inv req s s' l message matches uploaded :
  upload_and_match req s = (s', l, Response (Matches message matches uploaded) 200) →
  ∃ file selected_photos single_encodings,
    (validate req s).2 = Next (file, selected_photos)
    ∧ (saved file s).2 = None
    ∧ encodings_at (saved file s).1 (single_image_path file) = inr single_encodings
    ∧ all_matches (saved file s).1 single_encodings selected_photos = inr matches.
Proof.
  intros Hrun. destruct (upload_and_match_eq req s) as [l' Hl'].
  rewrite Hrun in Hl'. revert Hl'.
  destruct (validate req s).2 as [[file sel]|o] eqn:Hv.
  2:{ intros [= _ _ <-]. by destruct (validate_return _ _ _ Hv) as [[msg ?]|[e ?]]. }
  simpl. unfold after_process.
  destruct (saved file s).2 eqn:Hsave; [done|].
  destruct (encodings_at _ _) as [e|[|a single]] eqn:Henc; [done..|].
  destruct (all_matches _ _ sel) as [e|results] eqn:Hall; [done|].
  destruct (moved file _).2; [done|].
  destruct results as [|r0 results]; [done|]. intros [= _ _ _ -> _].
  by exists file, sel, (a :: single).
Qed.

(** C2: every match of a 200 answer names a face of the upload and a face
    of the bulk image of its file, and carries the distance that the library
    computed for these two faces; its confidence is
    [max(0, 1.0 - distance) * 100] printed with two decimals and a percent
    sign, that is, for a number, the nearest number of hundredths (ties to
    the even one) in decimal digits; at distance 0.2 that is "80.00 %". *)
Theorem C2_confidence_of_a_match req s s' l message matches uploaded :
  upload_and_match req s = (s', l, Response (Matches message matches uploaded) 200) →
  (∀ r, r ∈ matches →
     (∃ file selected_photos single_encodings bulk_encodings se be,
         (validate req s).2 = Next (file, selected_photos)
         ∧ encodings_at (saved file s).1 (single_image_path file) = inr single_encodings
         ∧ encodings_at (saved file s).1 (path_join BULK_FOLDER (matched_file r))
           = inr bulk_encodings
         ∧ single_encodings !! uploaded_face_index r = Some se
         ∧ bulk_encodings !! matched_face_index_in_bulk r = Some be
         ∧ face_distance r = face_recognition.face_distance be se)
     ∧ confidence r
       = (F64.format_2f
            (F64.mul (max0 (F64.sub F64.one (face_distance r))) F64.hundred) ++ " %")%string
     ∧ match F64.mul (max0 (F64.sub F64.one (face_distance r))) F64.hundred with
       | S754_finite sg m e =>
           ∃ n, F64.spec_nearest_hundredths m e n
                ∧ confidence r
                  = ((if sg then "-" else "") ++ F64.spec_two_decimals n ++ " %")%string
       | S754_zero sg => confidence r = ((if sg then "-" else "") ++ "0.00 %")%string
       | S754_infinity sg => confidence r = ((if sg then "-" else "") ++ "inf %")%string
       | S754_nan => confidence r = "nan %"%string
       end)
  ∧ (∀ r, r ∈ matches → face_distance r = F64.of_decimal 2 1 →
       confidence r = "80.00 %"%string).
Proof.
  intros Hrun.
  destruct (matches_answer_inv _ _ _ _ _ _ _ Hrun)
    as (file & sel & single & Hv & _ & Henc & Hall).
  assert (∀ r, r ∈ matches →
            (∃ bulk se be,
                encodings_at (saved file s).1 (path_join BULK_FOLDER (matched_file r))
                = inr bulk
                ∧ single !! uploaded_face_index r = Some se
                ∧ bulk !! matched_face_index_in_bulk r = Some be
                ∧ face_distance r = face_recognition.face_distance be se)
            ∧ confidence r = confidence_text (face_distance r)) as Hmatch.
  { intros r Hr.
    destruct (elem_of_all_matches_inv _ _ _ _ _ Hall Hr) as (f & id & _ & Hcand).
    apply elem_of_candidate_matches in Hcand
      as (bulk & i & se & j & be & _ & Hbulk & Hi & Hj & Hpair).
    apply compare_pair_Some in Hpair as (_ & _ & ->). simpl. split; [|done].
    by exists bulk, se, be. }
  split.
  - intros r Hr. destruct (Hmatch r Hr) as [(bulk & se & be & Hbulk & Hi & Hj & Hd) Hc].
    split; [by exists file, sel, single, bulk, se, be|]. split; [done|].
    rewrite Hc. unfold confidence_text, confidence_value.
    destruct (F64.mul _ _) as [sg|sg| |sg m e];
      [by destruct sg|by destruct sg|done|].
    exists (F64.hundredths m e). split; [apply hundredths_nearest|].
    simpl. rewrite fixed2_spec. by destruct sg.
  - intros r Hr Hd. destruct (Hmatch r Hr) as [_ ->]. rewrite Hd.
    vm_compute. reflexivity.
Qed.

(** ** The path of the saved upload *)


(** C10, as the code has it: every match of a 200 answer has a distance
    strictly below 0.4 and, the distance being a double, a confidence value
    [max(0, 1 - distance) * 100] strictly above 60; printed with two
    decimals it is never below "60.00", and it is "60.00" itself for the
    distances just below 0.4.  (The text is "inf" when the product
    overflows, which takes a negative distance.) *)
Theorem C10_confidence_not_below_sixty req s s' l message matches uploaded :
  (∀ r, r ∈ matches → F64.valid (face_distance r) = true) →
  upload_and_match req s = (s', l, Response (Matches message matches uploaded) 200) →
  ∀ r, r ∈ matches →
    F64.ltb (face_distance r) distance_threshold = true
    ∧ F64.ltb (F64.of_Z 60) (confidence_value (face_distance r)) = true
    ∧ (confidence r = "inf %"%string
       ∨ ∃ n, 6000 ≤ n ∧ confidence r = (F64.fixed2 n ++ " %")%string).
Proof.
  intros Hvalid Hrun r Hr.
  destruct (matches_of_response _ _ _ _ _ _ _ _ Hrun r Hr)
    as (f & id & i & se & j & be & Hpair).
  specialize (Hvalid r Hr).
  apply compare_pair_Some in Hpair as (_ & Hlt & ->). simpl in *.
  pose proof (confidence_at_least _ Hvalid Hlt) as Hconf.
  split; [done|]. split; [by apply at_least_ltb_sixty|].
  unfold confidence_text.
  destruct (confidence_value _) as [?|[]| |[] m e]; try done.
  - by left.
  - right. exists (F64.hundredths m e). split; [by apply at_least_hundredths|done].
Qed.

End Properties.

(** ** The theorems at concrete requests *)

Module Witness.

Import Stub.





Lemma C3_witness :
  ∃ l, handle (upload "face1.jpg" (face 0) "[1]") disk = (disk, l, Uncaught TypeError).
Proof.
  apply (@C3_non_object_entry_is_uncaught file_system json_api face_api
           (upload "face1.jpg" (face 0) "[1]") disk face1 "[1]" [] (PInt 1)).
  - vm_compute. reflexivity.
  - vm_compute. reflexivity.
  - discriminate.
  - vm_compute. reflexivity.
  - vm_compute. reflexivity.
  - discriminate.
Defined.

Lemma C4_witness :
  ∃ l, handle (upload "blank.png" [] "[]") disk
       = (<["/app/single/blank.png"%string := []]> disk, l,
          Response (Error "No face detected in the uploaded image") 400).
Proof.
  apply (@C4_no_face_is_400_and_not_moved file_system json_api face_api
           (upload "blank.png" [] "[]") disk
           {| filename := "blank.png"; content := [] |} []).
  - vm_compute. reflexivity.
  - reflexivity.
  - vm_compute. reflexivity.
Defined.

Lemma C5_witness :
  ∃ l, handle (upload "face1.jpg" (face 0) two_photos) disk
       = ({[ "/app/bulk/a.jpg"%string := face 20000;
             "/app/processed/face1.jpg"%string := face 0 ]}, l,
          Response (Matches "Success! Matches found." [match_a] "face1.jpg") 200).
Proof.
  destruct (@C5_moved_after_the_loop file_system json_api face_api
              (upload "face1.jpg" (face 0) two_photos) disk face1
              [(PStr "a.jpg", PInt 1); (PStr "b.jpg", PInt 2)] [0] [match_a])
    as [l Hl].
  - vm_compute. reflexivity.
  - reflexivity.
  - vm_compute. reflexivity.
  - discriminate.
  - vm_compute. reflexivity.
  - exists l. unfold handle. rewrite Hl. vm_compute. reflexivity.
Defined.

Lemma C6_witness :
  (∃ l, candidate [0] [match_a] (PStr "b.jpg", PInt 2) (saved face1 disk).1
        = ((saved face1 disk).1, l, Next [match_a]))
  ∧ (handle (upload "face1.jpg" (face 0) two_photos) disk).1.1
    = (handle (upload "face1.jpg" (face 0) one_photo) disk).1.1
  ∧ (handle (upload "face1.jpg" (face 0) two_photos) disk).2
    = (handle (upload "face1.jpg" (face 0) one_photo) disk).2.
Proof.
  apply (@C6_soft_failures_are_skipped file_system json_api face_api
           (upload "face1.jpg" (face 0) two_photos)
           (upload "face1.jpg" (face 0) one_photo) disk face1
           [(PStr "a.jpg", PInt 1)] [] "b.jpg" (PInt 2) [0] [match_a]).
  - left. vm_compute. reflexivity.
  - vm_compute. reflexivity.
  - vm_compute. reflexivity.
Defined.

Lemma C1_witness :
  tolerance = F64.of_decimal 5 1 ∧ distance_threshold = F64.of_decimal 4 1 ∧
  ∃ l new,
    candidate [0] [] (PStr "a.jpg", PInt 1) disk = (disk, l, Next ([] ++ new))
    ∧ ∀ i j se be,
        [0] !! i = Some se → [20000] !! j = Some be →
        ((∃ r, r ∈ new ∧ uploaded_face_index r = i ∧ matched_face_index_in_bulk r = j)
         ↔ face_recognition.compare_faces be se tolerance = true
           ∧ F64.ltb (face_recognition.face_distance be se) distance_threshold = true)
        ∧ (F64.ltb (face_recognition.face_distance be se) distance_threshold = false →
           ¬ ∃ r, r ∈ new ∧ uploaded_face_index r = i ∧ matched_face_index_in_bulk r = j).
Proof.
  apply (@C1_recorded_iff_match_and_distance file_system face_api
           [0] [] "a.jpg" (PInt 1) disk [20000]).
  - vm_compute. reflexivity.
  - vm_compute. reflexivity.
Defined.

Lemma C2_witness :
  (∀ r, r ∈ [match_a] →
     (∃ file selected_photos single_encodings bulk_encodings se be,
         (validate (upload "face1.jpg" (face 0) two_photos) disk).2
         = Next (file, selected_photos)
         ∧ encodings_at (saved file disk).1 (single_image_path file) = inr single_encodings
         ∧ encodings_at (saved file disk).1 (path_join BULK_FOLDER (matched_file r))
           = inr bulk_encodings
         ∧ single_encodings !! uploaded_face_index r = Some se
         ∧ bulk_encodings !! matched_face_index_in_bulk r = Some be
         ∧ face_distance r = face_recognition.face_distance be se)
     ∧ confidence r
       = (F64.format_2f
            (F64.mul (max0 (F64.sub F64.one (face_distance r))) F64.hundred) ++ " %")%string
     ∧ match F64.mul (max0 (F64.sub F64.one (face_distance r))) F64.hundred with
       | S754_finite sg m e =>
           ∃ n, F64.spec_nearest_hundredths m e n
                ∧ confidence r
                  = ((if sg then "-" else "") ++ F64.spec_two_decimals n ++ " %")%string
       | S754_zero sg => confidence r = ((if sg then "-" else "") ++ "0.00 %")%string
       | S754_infinity sg => confidence r = ((if sg then "-" else "") ++ "inf %")%string
       | S754_nan => confidence r = "nan %"%string
       end)
  ∧ (∀ r, r ∈ [match_a] → face_distance r = F64.of_decimal 2 1 →
       confidence r = "80.00 %"%string).
Proof.
  apply (@C2_confidence_of_a_match file_system json_api face_api
           (upload "face1.jpg" (face 0) two_photos) disk
           (handle (upload "face1.jpg" (face 0) two_photos) disk).1.1
           (handle (upload "face1.jpg" (face 0) two_photos) disk).1.2
           "Success! Matches found." [match_a] "face1.jpg").
  vm_compute. reflexivity.
Defined.


(** A 200 answer that reports a match with the confidence "60.00 %": the
    distance 0.39999 is below the threshold and [60.001] prints as "60.00". *)
Lemma C10_counterexample :
  (handle (upload "face1.jpg" (face 0) one_photo) disk_near).2
  = Response (Matches "Success! Matches found." [match_near] "face1.jpg") 200
  ∧ confidence match_near = "60.00 %"%string
  ∧ F64.ltb (face_distance match_near) distance_threshold = true.
Proof. vm_compute. repeat split; reflexivity. Qed.

Lemma C10_witness :
  F64.ltb (face_distance match_near) distance_threshold = true
  ∧ F64.ltb (F64.of_Z 60) (confidence_value (face_distance match_near)) = true
  ∧ (confidence match_near = "inf %"%string
     ∨ ∃ n, 6000 ≤ n ∧ confidence match_near = (F64.fixed2 n ++ " %")%string).
Proof.
  apply (@C10_confidence_not_below_sixty file_system json_api face_api
           (upload "face1.jpg" (face 0) one_photo) disk_near
           (handle (upload "face1.jpg" (face 0) one_photo) disk_near).1.1
           (handle (upload "face1.jpg" (face 0) one_photo) disk_near).1.2
           "Success! Matches found." [match_near] "face1.jpg").
  - intros r Hr. apply list_elem_of_singleton in Hr as ->. vm_compute. reflexivity.
  - vm_compute. reflexivity.
  - apply list_elem_of_singleton. reflexivity.
Defined.

(** The scenarios of the specification, on the test double. *)

(** No candidate file is present: the answer is "No match found" and the
    upload has gone from the single folder to the processed folder. *)
Example no_candidate_present :
  ∃ l, handle (upload "face1.jpg" (face 0) two_photos) ∅
       = ({[ "/app/processed/face1.jpg"%string := face 0 ]}, l,
          Response (Message "No match found" "face1.jpg") 200).
Proof. eexists. vm_compute. reflexivity. Qed.

(** A face at distance 0.45 passes the comparison at tolerance 0.5 and is
    not recorded. *)
Example comparison_alone_is_not_enough :
  face_recognition.compare_faces 45000 0 tolerance = true
  ∧ (handle (upload "face1.jpg" (face 0) one_photo)
            {[ "/app/bulk/a.jpg"%string := face 45000 ]}).2
    = Response (Message "No match found" "face1.jpg") 200.
Proof. vm_compute. split; reflexivity. Qed.

(** The name [../evil.jpg] is accepted and the bytes are written next to the
    single folder, not in it. *)
Example traversal_writes_outside :
  ∃ l, handle (upload "../evil.jpg" [] "[]") ∅
       = ({[ "/app/single/../evil.jpg"%string := [] ]}, l,
          Response (Error "No face detected in the uploaded image") 400).
Proof. eexists. vm_compute. reflexivity. Qed.

End Witness.

(** * Further properties of the handler *)

From stdpp Require Import sorting.

Section Further.

Context `{FS : FileSystem} `{JS : json.API} `{FR : !face_recognition.API}.

Implicit Types (s : fs_state) (file : FileStorage) (req : request).

(** ** The two server errors before the loop *)

(** X1: when [file.save] raises, the answer is 500 with the text of the
    exception, and the file system is the one the failed save left: the
    image is not loaded and nothing is moved. *)
Theorem X1_save_failure_is_500 req s file selected_photos e :
  (validate req s).2 = Next (file, selected_photos) →
  (saved file s).2 = Some e →
  ∃ l, upload_and_match req s
       = ((saved file s).1, l,
          Response (Error ("Failed to save uploaded file: " ++ e)) 500).
Proof.
  intros Hv Hsave. destruct (validate_next req s _ _ Hv) as [l Hl].
  exists l. rewrite Hl. unfold after_process. by rewrite Hsave.
Qed.

(** X2: when the saved upload cannot be loaded or encoded, the answer is 500
    with the text of the exception, whatever the candidates are, and the
    upload stays where it was saved. *)
Theorem X2_unreadable_upload_is_500 req s file selected_photos e :
  (validate req s).2 = Next (file, selected_photos) →
  (saved file s).2 = None →
  encodings_at (saved file s).1 (single_image_path file) = inl e →
  ∃ l, upload_and_match req s
       = ((saved file s).1, l,
          Response (Error ("Failed to process the uploaded image: " ++ e)) 500).
Proof.
  intros Hv Hsave Henc. destruct (validate_next req s _ _ Hv) as [l Hl].
  exists l. rewrite Hl. unfold after_process. by rewrite Hsave, Henc.
Qed.

(** ** A candidate name that is not a string *)

Lemma all_matches_not_str single_encodings before k v after s :
  Forall (λ kv, ∃ image_file, kv.1 = PStr image_file) before →
  (∀ image_file, k ≠ PStr image_file) →
  all_matches s single_encodings (before ++ (k, v) :: after) = inl TypeError.
Proof.
  intros Hbefore Hk. induction Hbefore as [|[k' v'] before [name Hname] _ IH]; simpl.
  - destruct k; try done. by destruct (Hk s0).
  - simpl in Hname. subst k'. by rewrite IH.
Qed.

(** X3: a name that is not a string (a number, [true], [null]) passes the
    validation, and [os.path.join] raises [TypeError] when the loop reaches
    it: the exception leaves the handler, the matches found so far are
    dropped, and the upload stays in the single folder. *)
Theorem X3_name_not_a_string_raises
    req s file before k v after single_encodings :
  (validate req s).2 = Next (file, before ++ (k, v) :: after) →
  Forall (λ kv, ∃ image_file, kv.1 = PStr image_file) before →
  (∀ image_file, k ≠ PStr image_file) →
  (saved file s).2 = None →
  encodings_at (saved file s).1 (single_image_path file) = inr single_encodings →
  single_encodings ≠ [] →
  ∃ l, upload_and_match req s = ((saved file s).1, l, Uncaught TypeError).
Proof.
  intros Hv Hbefore Hk Hsave Henc Hne. destruct (validate_next req s _ _ Hv) as [l Hl].
  exists l. rewrite Hl. unfold after_process. rewrite Hsave, Henc.
  destruct single_encodings as [|a single]; [done|].
  by rewrite all_matches_not_str.
Qed.

(** ** The answers that exist *)

Lemma all_matches_raises single_encodings selected_photos s e :
  all_matches s single_encodings selected_photos = inl e → e = TypeError.
Proof.
  induction selected_photos as [|[k v] sel IH]; simpl; [done|].
  destruct k; try (by intros [= <-]).
  destruct (all_matches s single_encodings sel); [|done].
  intros [= <-]. by apply IH.
Qed.

Lemma add_photos_raises items acc e :
  add_photos acc items = inl e → e = TypeError ∨ ∃ k, e = KeyError k.
Proof.
  revert acc. induction items as [|item items IH]; intros acc; simpl; [done|].
  destruct (add_photo acc item) as [e'|acc'] eqn:Hadd; [|apply IH].
  intros [= <-]. revert Hadd. unfold add_photo, subscript.
  destruct item; try (intros [= <-]; by left).
  destruct (dict_get items0 "name") as [k|]; [|intros [= <-]; right; by eexists].
  destruct (dict_get items0 "id") as [v|]; [|intros [= <-]; right; by eexists].
  destruct (hashable k); [done|]. intros [= <-]. by left.
Qed.

(** The exceptions of the comprehension are [KeyError] and [TypeError]; any
    other one was raised by the decoder. *)
Lemma parse_photos_raises json_data e :
  parse_photos json_data = inl e →
  json.loads json_data = inl e ∨ e = TypeError ∨ ∃ k, e = KeyError k.
Proof.
  unfold parse_photos, photo_map.
  destruct (json.loads json_data) as [e'|v]; [intros [= <-]; by left|].
  destruct (py_iter v) as [e'|items] eqn:Hiter.
  - intros [= <-]. right. left. destruct v; simpl in Hiter; congruence.
  - intros Hadd. right. by apply add_photos_raises in Hadd.
Qed.

(** X4: every request ends in one of six ways: a 400 or a 500 with an error
    text, a 200 that lists at least one match, a 200 "No match found", a
    [TypeError] that leaves the handler, or an exception of [json.loads]
    that line 60 does not catch (such as [RecursionError]) and that leaves
    the handler too; the two 200 answers repeat the file name as the client
    sent it. *)
Theorem X4_outcomes req s :
  (∃ msg, (upload_and_match req s).2 = Response (Error msg) 400)
  ∨ (∃ msg, (upload_and_match req s).2 = Response (Error msg) 500)
  ∨ (∃ file r rs, files req !! "file"%string = Some file
       ∧ (upload_and_match req s).2
         = Response (Matches "Success! Matches found." (r :: rs) (filename file)) 200)
  ∨ (∃ file, files req !! "file"%string = Some file
       ∧ (upload_and_match req s).2
         = Response (Message "No match found" (filename file)) 200)
  ∨ (upload_and_match req s).2 = Uncaught TypeError
  ∨ (∃ json_data e, form req !! "json_data"%string = Some json_data
       ∧ json.loads json_data = inl e
       ∧ e ≠ JSONDecodeError ∧ (∀ k, e ≠ KeyError k)
       ∧ (upload_and_match req s).2 = Uncaught e).
Proof.
  destruct (upload_and_match_eq req s) as [l ->]. unfold validate.
  destruct (files req !! "file"%string) as [file|],
    (form req !! "json_data"%string) as [json_data|]; simpl;
    try (left; by eexists).
  destruct (String.eqb _ _); simpl; [left; by eexists|].
  destruct (negb _); simpl; [left; by eexists|].
  destruct (parse_photos json_data) as [e|sel] eqn:Hparse; simpl.
  { destruct (parse_photos_raises _ _ Hparse) as [Hloads|[->|[k ->]]];
      [|do 4 right; by left|left; by eexists].
    destruct e; simpl; try (left; by eexists); [do 4 right; by left|..];
      do 5 right; eexists json_data, _; by repeat split. }
  unfold after_process.
  destruct (saved file s).2; simpl; [right; left; by eexists|].
  destruct (encodings_at _ _) as [e|[|a single]]; simpl;
    [right; left; by eexists|left; by eexists|].
  destruct (all_matches _ _ sel) as [e|results] eqn:Hall; simpl.
  { apply all_matches_raises in Hall as ->. by do 4 right; left. }
  destruct (moved file _).2; simpl; [right; left; by eexists|].
  destruct results as [|r rs]; simpl.
  - do 3 right. left. by exists file.
  - do 2 right. left. by exists file, r, rs.
Qed.

(** ** How the candidates compose *)

Lemma all_matches_app single_encodings l1 l2 s :
  all_matches s single_encodings (l1 ++ l2)
  = match all_matches s single_encodings l1 with
    | inl e => inl e
    | inr r1 =>
        match all_matches s single_encodings l2 with
        | inl e => inl e
        | inr r2 => inr (r1 ++ r2)
        end
    end.
Proof.
  induction l1 as [|[k v] l1 IH]; simpl.
  - by destruct (all_matches s single_encodings l2).
  - destruct k; try done. rewrite IH.
    destruct (all_matches s single_encodings l1); [done|].
    destruct (all_matches s single_encodings l2); [done|].
    by rewrite app_assoc.
Qed.

Lemma match_candidates_result single_encodings selected_photos s :
  (match_candidates single_encodings selected_photos s).2
  = match all_matches s single_encodings selected_photos with
    | inr rs => Next rs
    | inl e => Return (Uncaught e)
    end.
Proof. by destruct (match_candidates_eq single_encodings selected_photos s) as [l ->]. Qed.

(** X5: the loop over a mapping that is one mapping after another gives the
    results of the first followed by the results of the second: a candidate
    neither adds to nor removes from what the other candidates match. *)
Theorem X5_candidates_compose single_encodings l1 l2 s r1 r2 :
  (match_candidates single_encodings l1 s).2 = Next r1 →
  (match_candidates single_encodings l2 s).2 = Next r2 →
  (match_candidates single_encodings (l1 ++ l2) s).2 = Next (r1 ++ r2).
Proof.
  rewrite !match_candidates_result, all_matches_app.
  destruct (all_matches s single_encodings l1); [done|].
  destruct (all_matches s single_encodings l2); [done|].
  by intros [= ->] [= ->].
Qed.

(** ** Where a reported match comes from *)

(** X6: a match of a 200 answer names a candidate of the request together
    with the id the request gave it; the bulk file of that name exists and
    encodes, and the two indices of the match point at a face of the upload
    and at a face of that bulk image. *)
Theorem X6_matches_come_from_the_request req s s' l message matches uploaded r :
  upload_and_match req s = (s', l, Response (Matches message matches uploaded) 200) →
  r ∈ matches →
  ∃ file selected_photos single_encodings bulk_encodings,
    (validate req s).2 = Next (file, selected_photos)
    ∧ (PStr (matched_file r), matched_id r) ∈ selected_photos
    ∧ encodings_at (saved file s).1 (single_image_path file) = inr single_encodings
    ∧ os_path_exists (saved file s).1 (path_join BULK_FOLDER (matched_file r)) = true
    ∧ encodings_at (saved file s).1 (path_join BULK_FOLDER (matched_file r))
      = inr bulk_encodings
    ∧ (uploaded_face_index r < length single_encodings)%nat
    ∧ (matched_face_index_in_bulk r < length bulk_encodings)%nat.
Proof.
  intros Hrun Hr.
  destruct (matches_answer_inv _ _ _ _ _ _ _ Hrun) as (file & sel & single & Hv & _ & Henc & Hall).
  destruct (elem_of_all_matches_inv _ _ _ _ _ Hall Hr) as (f & id & Hin & Hcand).
  apply elem_of_candidate_matches in Hcand
    as (bulk & i & se & j & be & Hex & Hbulk & Hi & Hj & Hpair).
  apply compare_pair_Some in Hpair as (_ & _ & ->). simpl.
  exists file, sel, single, bulk. repeat split; try done.
  - by apply lookup_lt_Some in Hi.
  - by apply lookup_lt_Some in Hj.
Qed.

(** ** The matches in the log book *)

Ltac run_step :=
  unfold mbind, M_bind, mret, M_ret, logger, return_, raise, read_fs; simpl.

Lemma logged_matches_app l1 l2 :
  logged_matches (l1 ++ l2) = logged_matches l1 ++ logged_matches l2.
Proof. apply omap_app. Qed.

Lemma logged_match_lines rs : logged_matches (match_lines rs) = rs.
Proof. induction rs as [|r rs IH]; [done|]. simpl. by rewrite IH. Qed.

Lemma candidate_log single_encodings results image_file image_id s :
  logged_matches (candidate single_encodings results (PStr image_file, image_id) s).1.2
  = candidate_matches s single_encodings image_file image_id.
Proof.
  unfold candidate, candidate_matches, encode_file, encodings_at. simpl. run_step.
  destruct (os_path_exists s _); simpl; [|done].
  destruct (face_recognition.load_image_file s _) as [e|img]; simpl; [done|].
  destruct (face_recognition.face_encodings img) as [e|[|b bs]]; simpl; [done| |].
  - by rewrite face_matches_nil.
  - rewrite faces_loop_eq. simpl. apply logged_match_lines.
Qed.

Lemma foldM_candidate_log single_encodings selected_photos results s rs :
  all_matches s single_encodings selected_photos = inr rs →
  logged_matches (foldM (candidate single_encodings) selected_photos results s).1.2 = rs.
Proof.
  revert results rs. induction selected_photos as [|[k v] sel IH]; intros results rs; simpl.
  - by intros [= <-].
  - destruct k as [| | | |image_file| |]; try done.
    destruct (all_matches s single_encodings sel) as [e|rs'] eqn:Hall; [done|].
    intros [= <-].
    pose proof (candidate_log single_encodings results image_file v s) as Hlog.
    destruct (candidate_eq single_encodings results image_file v s) as [l Hl].
    rewrite Hl in Hlog. simpl in Hlog.
    erewrite bind_next by exact Hl. simpl.
    by rewrite logged_matches_app, Hlog, (IH _ _ eq_refl).
Qed.

Lemma validate_log req s : logged_matches (validate req s).1.2 = [].
Proof.
  unfold validate.
  destruct (files req !! "file"%string) as [file|],
    (form req !! "json_data"%string) as [json_data|]; try done.
  destruct (String.eqb _ _); [done|].
  destruct (negb _); [done|].
  by destruct (parse_photos json_data) as [[]|].
Qed.

Lemma process_log file selected_photos s single_encodings results :
  (saved file s).2 = None →
  encodings_at (saved file s).1 (single_image_path file) = inr single_encodings →
  single_encodings ≠ [] →
  all_matches (saved file s).1 single_encodings selected_photos = inr results →
  logged_matches (process file selected_photos s).1.2 = results.
Proof.
  unfold saved. intros Hsave Henc Hne Hall.
  pose proof (foldM_candidate_log _ _ [] _ _ Hall) as Hlog.
  destruct (match_candidates_eq single_encodings selected_photos
              (file_save s (single_image_path file) (content file)).1) as [l Hl].
  unfold match_candidates in Hl. rewrite Hl in Hlog. simpl in Hlog. rewrite Hall in Hl.
  unfold process, save_upload, encode_upload, encode_file, move_upload, write_fs.
  fold (encodings_at). run_step. rewrite Hsave. simpl.
  fold (encodings_at (file_save s (single_image_path file) (content file)).1
          (single_image_path file)).
  rewrite Henc. destruct single_encodings as [|a single]; [done|]. simpl.
  unfold match_candidates. rewrite Hl.
  destruct (shutil_move _ _ _) as [s2 [e|]]; simpl.
  - rewrite logged_matches_app, Hlog. simpl. by rewrite app_nil_r.
  - unfold respond. destruct results; run_step;
      rewrite logged_matches_app, Hlog; simpl; by rewrite ?app_nil_r.
Qed.

(** X7: when the loop has run to its end, the log book holds one "Match
    found" line for each result, in the order of the results and nowhere
    else; this also holds when the move then fails and the answer is a 500
    that does not show them. *)
Theorem X7_every_match_is_logged
    req s file selected_photos single_encodings results :
  (validate req s).2 = Next (file, selected_photos) →
  (saved file s).2 = None →
  encodings_at (saved file s).1 (single_image_path file) = inr single_encodings →
  single_encodings ≠ [] →
  (match_candidates single_encodings selected_photos (saved file s).1).2 = Next results →
  logged_matches (upload_and_match req s).1.2 = results.
Proof.
  intros Hv Hsave Henc Hne Hloop.
  rewrite match_candidates_result in Hloop.
  destruct (all_matches _ _ _) as [e|rs] eqn:Hall; [done|]. injection Hloop as ->.
  pose proof (process_log _ _ _ _ _ Hsave Henc Hne Hall) as Hlog.
  pose proof (validate_log req s) as Hvlog.
  unfold upload_and_match, run. run_step.
  rewrite (validate_any_state req s s) in *. simpl in Hvlog.
  destruct (validate req s) as [[s0 lv] [fp|o]]; simpl in *; [|done].
  injection Hv as ->.  simpl.
  destruct (process file selected_photos s) as [[s2 l2] [o|o]]; simpl in *;
    by rewrite logged_matches_app, Hvlog, Hlog.
Qed.

(** ** The order of the results *)

Lemma seq_sorted n k : StronglySorted lt (seq n k).
Proof.
  revert n. induction k as [|k IH]; intros n; simpl; [constructor|].
  constructor; [apply IH|]. apply Forall_seq. lia.
Qed.

Lemma enumerate_fst {A} (l : list A) : (enumerate l).*1 = seq 0 (length l).
Proof.
  unfold enumerate. rewrite fmap_imap.
  rewrite (imap_ext _ (λ j _, id j)) by done.
  by rewrite imap_seq_0, list_fmap_id.
Qed.

Lemma omap_sorted {X Y} (f : X → option Y) (g : X → nat) (h : Y → nat) (l : list X) :
  (∀ x y, f x = Some y → h y = g x) →
  StronglySorted lt (g <$> l) → StronglySorted lt (h <$> omap f l).
Proof.
  intros Hkey. induction l as [|x l IH]; csimpl; [constructor|].
  rewrite StronglySorted_cons. intros [Hall Hsorted].
  destruct (f x) as [y|] eqn:Hy; csimpl; [|by apply IH].
  constructor; [by apply IH|].
  rewrite Forall_fmap, Forall_forall. intros y' Hy'. simpl.
  apply list_elem_of_omap in Hy' as (x' & Hx' & Hfx').
  rewrite (Hkey _ _ Hy), (Hkey _ _ Hfx').
  rewrite Forall_fmap, Forall_forall in Hall. by apply Hall.
Qed.

Lemma pair_matches_fields image_file image_id ie bulk_encodings r :
  r ∈ pair_matches image_file image_id ie bulk_encodings →
  uploaded_face_index r = ie.1 ∧ matched_file r = image_file ∧ matched_id r = image_id.
Proof.
  unfold pair_matches. intros ([j be] & _ & Hr)%list_elem_of_omap.
  by apply compare_pair_Some in Hr as (_ & _ & ->).
Qed.

Lemma pair_matches_sorted image_file image_id ie bulk_encodings :
  StronglySorted lex_lt (indices <$> pair_matches image_file image_id ie bulk_encodings).
Proof.
  assert (StronglySorted lt (matched_face_index_in_bulk
            <$> pair_matches image_file image_id ie bulk_encodings)) as Hj.
  { unfold pair_matches. apply (omap_sorted _ fst).
    - intros [j be] r Hr. by apply compare_pair_Some in Hr as (_ & _ & ->).
    - rewrite enumerate_fst. apply seq_sorted. }
  pose proof (pair_matches_fields image_file image_id ie bulk_encodings) as Hi.
  induction (pair_matches image_file image_id ie bulk_encodings) as [|r rs IH];
    simpl; [constructor|].
  rewrite fmap_cons in Hj. apply StronglySorted_cons in Hj as [Hall Hj].
  constructor.
  - apply IH; [done|]. intros r' Hr'. apply Hi. by right.
  - rewrite Forall_fmap, Forall_forall. intros r' Hr'. right. simpl. split.
    + destruct (Hi r) as [-> _]; [left|]. destruct (Hi r') as [-> _]; [by right|done].
    + rewrite Forall_fmap, Forall_forall in Hall. by apply Hall.
Qed.

Lemma face_matches_fields image_file image_id single_encodings bulk_encodings r :
  r ∈ face_matches image_file image_id single_encodings bulk_encodings →
  matched_file r = image_file ∧ matched_id r = image_id.
Proof.
  intros (i & se & j & be & _ & _ & Hr)%elem_of_face_matches.
  by apply compare_pair_Some in Hr as (_ & _ & ->).
Qed.

Lemma face_matches_sorted image_file image_id single_encodings bulk_encodings :
  StronglySorted lex_lt
    (indices <$> face_matches image_file image_id single_encodings bulk_encodings).
Proof.
  unfold face_matches.
  pose proof (seq_sorted 0 (length single_encodings)) as Hsorted.
  rewrite <- enumerate_fst in Hsorted.
  induction (enumerate single_encodings) as [|ie l IH]; [constructor|].
  rewrite fmap_cons in Hsorted. apply StronglySorted_cons in Hsorted as [Hall Hsorted].
  rewrite bind_cons, fmap_app. apply StronglySorted_app_2; [|apply pair_matches_sorted|by apply IH].
  intros a b (r & -> & Hr)%list_elem_of_fmap (r' & -> & Hr')%list_elem_of_fmap.
  apply pair_matches_fields in Hr as (Hi & _).
  apply list_elem_of_bind in Hr' as (ie' & Hr' & Hie').
  apply pair_matches_fields in Hr' as (Hi' & _).
  left. simpl. rewrite Hi, Hi'.
  rewrite Forall_fmap, Forall_forall in Hall. by apply Hall.
Qed.

Lemma candidate_matches_chunk single_encodings image_file image_id s :
  Forall (λ r, matched_file r = image_file ∧ matched_id r = image_id)
         (candidate_matches s single_encodings image_file image_id)
  ∧ StronglySorted lex_lt
      (indices <$> candidate_matches s single_encodings image_file image_id).
Proof.
  unfold candidate_matches.
  destruct (os_path_exists s _); [|split; constructor].
  destruct (encodings_at s _) as [e|bulk]; [split; constructor|]. split.
  - apply Forall_forall. intros r. apply face_matches_fields.
  - apply face_matches_sorted.
Qed.

Lemma all_matches_chunks single_encodings selected_photos s results :
  all_matches s single_encodings selected_photos = inr results →
  ∃ chunks,
    results = concat chunks
    ∧ Forall2 (λ kv chunk,
        ∃ image_file, kv.1 = PStr image_file
          ∧ Forall (λ r, matched_file r = image_file ∧ matched_id r = kv.2) chunk
          ∧ StronglySorted lex_lt (indices <$> chunk))
        selected_photos chunks.
Proof.
  revert results. induction selected_photos as [|[k v] sel IH]; intros results; simpl.
  - intros [= <-]. exists []. split; [done|constructor].
  - destruct k as [| | | |image_file| |]; try done.
    destruct (all_matches s single_encodings sel) as [e|rs]; [done|].
    intros [= <-]. destruct (IH rs eq_refl) as (chunks & -> & Hchunks).
    exists (candidate_matches s single_encodings image_file v :: chunks).
    split; [done|]. constructor; [|done].
    exists image_file. split; [done|]. apply candidate_matches_chunk.
Qed.

(** X8: the matches of a 200 answer come in the order of the loops: one run
    of matches for each candidate of the mapping, in the order of the
    mapping, each run carrying the name and the id of its candidate and
    strictly increasing in the pair of the uploaded face index and the bulk
    face index; so no pair of faces is reported twice for a candidate. *)
Theorem X8_matches_are_ordered req s s' l message matches uploaded :
  upload_and_match req s = (s', l, Response (Matches message matches uploaded) 200) →
  ∃ file selected_photos chunks,
    (validate req s).2 = Next (file, selected_photos)
    ∧ matches = concat chunks
    ∧ Forall2 (λ kv chunk,
        ∃ image_file, kv.1 = PStr image_file
          ∧ Forall (λ r, matched_file r = image_file ∧ matched_id r = kv.2) chunk
          ∧ StronglySorted lex_lt (indices <$> chunk))
        selected_photos chunks.
Proof.
  intros Hrun.
  destruct (matches_answer_inv _ _ _ _ _ _ _ Hrun) as (file & sel & single & Hv & _ & _ & Hall).
  destruct (all_matches_chunks _ _ _ _ Hall) as (chunks & Hconcat & Hchunks).
  by exists file, sel, chunks.
Qed.

End Further.

(** ** The checks that come before the JSON is decoded *)

(** X9: when a part is missing, the file name is empty or its extension is
    not accepted, the handler answers without decoding [json_data] and
    without calling the face library: the state, the log lines and the
    answer are the same whatever [json.loads] and [face_recognition] are. *)
Theorem X9_early_checks_do_not_decode `{FS : FileSystem}
    (JS1 JS2 : json.API) (FR1 FR2 : face_recognition.API) (req : request) (s : fs_state) :
  files req !! "file"%string = None
  ∨ form req !! "json_data"%string = None
  ∨ (∃ file, files req !! "file"%string = Some file
       ∧ (filename file = ""%string ∨ allowed_extension (filename file) = false)) →
  @upload_and_match FS JS1 FR1 req s = @upload_and_match FS JS2 FR2 req s.
Proof.
  intros Hbad. unfold upload_and_match, run, validate.
  unfold mbind, M_bind, logger. simpl.
  destruct (files req !! "file"%string) as [file|],
    (form req !! "json_data"%string) as [json_data|]; try done.
  destruct (String.eqb_spec (filename file) ""); [done|].
  destruct (allowed_extension (filename file)) eqn:Hext; [|done].
  destruct Hbad as [?|[?|(file' & [= <-] & [?|?])]]; congruence.
Qed.

(** ** The mapping from names to ids *)

Lemma add_photo_inr acc item acc' :
  add_photo acc item = inr acc' →
  ∃ k v, subscript item "name" = inr k ∧ subscript item "id" = inr v
         ∧ hashable k = true ∧ acc' = dict_set k v acc.
Proof.
  unfold add_photo.
  destruct (subscript item "name") as [e|k]; [done|].
  destruct (subscript item "id") as [e|v]; [done|].
  destruct (hashable k) eqn:Hk; [|done]. intros [= <-]. by exists k, v.
Qed.

Lemma good_item_add acc item :
  good_item item ↔ ∃ acc', add_photo acc item = inr acc'.
Proof.
  unfold good_item, add_photo, subscript. split.
  - intros (d & k & v & -> & -> & -> & ->). by eexists.
  - intros [acc' Hadd]. destruct item; try done.
    destruct (dict_get items "name") as [k|] eqn:Hk; [|done].
    destruct (dict_get items "id") as [v|] eqn:Hv; [|done].
    destruct (hashable k) eqn:Hh; [|done]. by exists items, k, v.
Qed.

Lemma add_photos_accepts acc items :
  (∃ sel, add_photos acc items = inr sel) ↔ Forall good_item items.
Proof.
  revert acc. induction items as [|item items IH]; intros acc; simpl.
  - split; [constructor|by eexists].
  - rewrite Forall_cons, (good_item_add acc). split.
    + intros [sel Hsel]. destruct (add_photo acc item) as [e|acc'] eqn:Hadd; [done|].
      split; [by eexists|]. apply (IH acc'). by eexists.
    + intros [[acc' Hadd] Hrest]. rewrite Hadd. by apply IH.
Qed.

(** X10: [json_data] passes the fourth check exactly when it decodes to a
    value whose iteration yields only objects that have the keys [name] and
    [id] with a hashable name.  That is a list of such objects, and also an
    empty object or an empty string, which are not arrays; a list with an
    unhashable name is not accepted although every entry has both keys. *)
Theorem X10_accepted_json `{JS : json.API} (json_data : string) :
  (∃ selected_photos, parse_photos json_data = inr selected_photos)
  ↔ ∃ v items,
      json.loads json_data = inr v ∧ py_iter v = inr items ∧ Forall good_item items.
Proof.
  unfold parse_photos, photo_map. split.
  - intros [sel Hsel]. destruct (json.loads json_data) as [e|v]; [done|].
    destruct (py_iter v) as [e|items] eqn:Hiter; [done|].
    exists v, items. repeat split; [done|]. apply (add_photos_accepts []). by eexists.
  - intros (v & items & -> & -> & Hgood). by apply add_photos_accepts.
Qed.

Lemma key_eqb_str_r k n : key_eqb k (PStr n) = true ↔ k = PStr n.
Proof.
  destruct k; simpl; try (split; [done|by intros [=]]).
  rewrite String.eqb_eq. split; [by intros ->|by intros [= ->]].
Qed.

Lemma key_eqb_str_l k n : key_eqb (PStr n) k = true ↔ k = PStr n.
Proof.
  destruct k; simpl; try (split; [done|by intros [=]]).
  rewrite String.eqb_eq. split; [by intros ->|by intros [= ->]].
Qed.

Lemma key_eqb_str_same k' k n :
  key_eqb k' k = true → key_eqb k' (PStr n) = key_eqb k (PStr n).
Proof.
  intros Hkk. destruct (key_eqb k (PStr n)) eqn:Hk.
  - apply key_eqb_str_r in Hk as ->. apply key_eqb_str_r in Hkk as ->.
    by apply key_eqb_str_r.
  - destruct (key_eqb k' (PStr n)) eqn:Hk'; [|done].
    apply key_eqb_str_r in Hk' as ->. apply key_eqb_str_l in Hkk as ->.
    rewrite <- Hk. symmetry. by apply key_eqb_str_r.
Qed.

Lemma dict_lookup_set n k v d :
  dict_lookup (PStr n) (dict_set k v d)
  = if key_eqb k (PStr n) then Some v else dict_lookup (PStr n) d.
Proof.
  unfold dict_lookup. induction d as [|[k' v'] d IH]; simpl.
  - by destruct (key_eqb k (PStr n)).
  - destruct (key_eqb k' k) eqn:Hkk; simpl.
    + rewrite (key_eqb_str_same _ _ n Hkk). by destruct (key_eqb k (PStr n)).
    + destruct (key_eqb k' (PStr n)) eqn:Hk'; [|done]. simpl.
      destruct (key_eqb k (PStr n)) eqn:Hk; [|done].
      apply key_eqb_str_r in Hk' as ->. apply key_eqb_str_r in Hk as ->.
      simpl in Hkk. by rewrite String.eqb_refl in Hkk.
Qed.

Lemma names_of_cons k v d :
  names_of ((k, v) :: d) = match k with PStr n => [n] | _ => [] end ++ names_of d.
Proof. by destruct k. Qed.

Lemma names_of_set k v d :
  names_of (dict_set k v d) = names_of d
  ∨ (∃ n, k = PStr n ∧ (n ∉ names_of d)
          ∧ names_of (dict_set k v d) = names_of d ++ [n]).
Proof.
  induction d as [|[k' v'] d IH]; simpl dict_set.
  - destruct k; try (by left). right. eexists. split; [done|]. split; [|done].
    apply not_elem_of_nil.
  - destruct (key_eqb k' k) eqn:Hkk; [by left|].
    rewrite !names_of_cons.
    destruct IH as [->|(n & -> & Hn & ->)]; [by left|]. right. exists n.
    split; [done|]. split; [|by rewrite app_assoc].
    destruct k'; simpl; try done.
    apply not_elem_of_cons. split; [|done].
    intros ->. simpl in Hkk. by rewrite String.eqb_refl in Hkk.
Qed.

Lemma add_photos_names acc items sel :
  add_photos acc items = inr sel → NoDup (names_of acc) → NoDup (names_of sel).
Proof.
  revert acc. induction items as [|item items IH]; intros acc; simpl.
  - by intros [= <-].
  - destruct (add_photo acc item) as [e|acc'] eqn:Hadd; [done|].
    apply add_photo_inr in Hadd as (k & v & _ & _ & _ & ->).
    intros Hsel Hacc. apply (IH _ Hsel).
    destruct (names_of_set k v acc) as [->|(n & _ & Hn & ->)]; [done|].
    apply NoDup_app. repeat split; [done| |apply NoDup_singleton].
    intros x Hx Hx'. apply list_elem_of_singleton in Hx' as ->. done.
Qed.

Lemma add_photos_lookup n acc items sel :
  add_photos acc items = inr sel →
  dict_lookup (PStr n) sel
  = match last (ids_named n items) with
    | Some v => Some v
    | None => dict_lookup (PStr n) acc
    end.
Proof.
  revert acc. induction items as [|item items IH]; intros acc; simpl.
  - by intros [= <-].
  - destruct (add_photo acc item) as [e|acc'] eqn:Hadd; [done|].
    apply add_photo_inr in Hadd as (k & v & Hk & Hv & _ & ->).
    intros Hsel. rewrite (IH _ Hsel), dict_lookup_set. unfold ids_named at 2.
    simpl. rewrite Hk, Hv. fold (ids_named n items).
    destruct k as [| | | |m| |]; simpl; try done.
    destruct (String.eqb m n); [|done].
    rewrite last_cons. by destruct (last (ids_named n items)).
Qed.

(** X11: in the mapping that the comprehension builds, no name occurs twice,
    and a name that several entries carry is mapped to the id of the last
    of them; a name that no entry carries is not in the mapping. *)
Theorem X11_last_id_wins `{JS : json.API} (json_data : string) v items selected_photos :
  parse_photos json_data = inr selected_photos →
  json.loads json_data = inr v →
  py_iter v = inr items →
  NoDup (names_of selected_photos)
  ∧ ∀ n, dict_lookup (PStr n) selected_photos = last (ids_named n items).
Proof.
  unfold parse_photos, photo_map. intros Hparse Hv Hitems.
  rewrite Hv, Hitems in Hparse. split.
  - apply (add_photos_names _ _ _ Hparse). constructor.
  - intros n. rewrite (add_photos_lookup n _ _ _ Hparse).
    by destruct (last (ids_named n items)).
Qed.

(** ** The check of the extension *)

Lemma app_cons c (a b : string) : (String c a ++ b)%string = String c (a ++ b).
Proof. reflexivity. Qed.

Lemma length_app (a b : string) :
  String.length (a ++ b) = (String.length a + String.length b)%nat.
Proof. induction a as [|c a IH]; [done|]. rewrite app_cons. simpl. by rewrite IH. Qed.

Lemma substring_all (b : string) : substring 0 (String.length b) b = b.
Proof. induction b as [|c b IH]; [done|]. simpl. by rewrite IH. Qed.

Lemma substring_app_skip (a b : string) :
  substring (String.length a) (String.length b) (a ++ b) = b.
Proof. induction a as [|c a IH]; [apply substring_all|]. by rewrite app_cons. Qed.

Lemma endswith_app (a b : string) : endswith (a ++ b) b = true.
Proof.
  unfold endswith. rewrite length_app.
  replace (String.length a + String.length b - String.length b)%nat
    with (String.length a) by lia.
  rewrite substring_app_skip, String.eqb_refl.
  apply andb_true_iff. split; [|done]. apply Nat.leb_le. lia.
Qed.

Lemma lower_app (a b : string) : lower (a ++ b) = (lower a ++ lower b)%string.
Proof. induction a as [|c a IH]; [done|]. rewrite app_cons. simpl. by rewrite IH. Qed.

Lemma length_lower (s : string) : String.length (lower s) = String.length s.
Proof. induction s as [|c s IH]; [done|]. simpl. by rewrite IH. Qed.

Lemma lower_substring i k (s : string) : lower (substring i k s) = substring i k (lower s).
Proof.
  revert i k. induction s as [|c s IH]; intros [|i] [|k]; simpl; try done.
  by rewrite IH.
Qed.

Lemma substring_split n (s : string) :
  (n ≤ String.length s)%nat →
  s = (substring 0 n s ++ substring n (String.length s - n) s)%string.
Proof.
  revert n. induction s as [|c s IH]; intros [|n] Hn; simpl in *; try done.
  - by rewrite substring_all.
  - rewrite app_cons. f_equal. apply IH. lia.
Qed.

Lemma endswith_split (s suffix : string) :
  endswith (lower s) suffix = true →
  ∃ stem ext, s = (stem ++ ext)%string ∧ lower ext = suffix.
Proof.
  unfold endswith. rewrite length_lower, andb_true_iff, Nat.leb_le, String.eqb_eq.
  intros [Hle Hsub].
  exists (substring 0 (String.length s - String.length suffix) s),
         (substring (String.length s - String.length suffix) (String.length suffix) s).
  split; [|by rewrite lower_substring].
  rewrite (substring_split (String.length s - String.length suffix) s) at 1 by lia.
  do 2 f_equal. lia.
Qed.

(** X12: a file name is accepted exactly when it is some text followed by an
    ending that reads [.jpg], [.jpeg] or [.png] once its letters are put in
    lower case.  The text before the ending is free: it may be empty, and
    it may hold dots and slashes. *)
Theorem X12_accepted_names (name : string) :
  allowed_extension name = true
  ↔ ∃ stem ext, name = (stem ++ ext)%string
      ∧ (lower ext = ".jpg"%string ∨ lower ext = ".jpeg"%string ∨ lower ext = ".png"%string).
Proof.
  unfold allowed_extension. rewrite !orb_true_iff. split.
  - intros [[H|H]|H]; apply endswith_split in H as (stem & ext & -> & Hext);
      exists stem, ext; auto.
  - intros (stem & ext & -> & Hext). rewrite lower_app.
    destruct Hext as [-> | [-> | ->]]; rewrite endswith_app; auto.
Qed.

(** ** The paths of the upload *)

Lemma string_app_assoc (a b c : string) : ((a ++ b) ++ c)%string = (a ++ b ++ c)%string.
Proof. induction a as [|x a IH]; [done|]. rewrite !app_cons. by rewrite IH. Qed.

Lemma substring_app_r (x b : string) i k :
  substring (String.length x + i) k (x ++ b) = substring i k b.
Proof. induction x as [|c x IH]; [done|]. rewrite app_cons. simpl. apply IH. Qed.

Lemma endswith_app_r (x b suffix : string) :
  (String.length suffix ≤ String.length b)%nat →
  endswith (x ++ b) suffix = endswith b suffix.
Proof.
  intros Hle. unfold endswith. rewrite length_app.
  replace (String.length x + String.length b - String.length suffix)%nat
    with (String.length x + (String.length b - String.length suffix))%nat by lia.
  rewrite substring_app_r. f_equal.
  apply eq_true_iff_eq. rewrite !Nat.leb_le. lia.
Qed.

Lemma path_join_relative (a b : string) :
  startswith b "/" = false → path_join a b = (dir_prefix a ++ b)%string.
Proof.
  intros Hb. unfold path_join, dir_prefix. rewrite Hb.
  destruct (String.eqb a "" || endswith a "/"); [done|]. by rewrite string_app_assoc.
Qed.

Lemma dir_prefix_folder (x folder : string) :
  folder ≠ ""%string → endswith folder "/" = false →
  dir_prefix (x ++ folder) = (x ++ folder ++ "/")%string.
Proof.
  intros Hne Hend. unfold dir_prefix.
  assert (String.eqb (x ++ folder) "" = false) as ->.
  { apply String.eqb_neq. intros Heq. apply (f_equal String.length) in Heq.
    rewrite length_app in Heq. destruct folder; [done|]. simpl in Heq. lia. }
  rewrite endswith_app_r, Hend; [by rewrite string_app_assoc|].
  destruct folder; [done|]. simpl. lia.
Qed.

Section Paths.

Context `{FS : FileSystem} `{JS : json.API} `{FR : !face_recognition.API}.

Lemma after_process_state file selected_photos (s : fs_state) :
  (after_process file selected_photos s).1 = (saved file s).1
  ∨ (after_process file selected_photos s).1 = (moved file (saved file s).1).1.
Proof.
  unfold after_process.
  destruct (saved file s).2; [by left|].
  destruct (encodings_at _ _) as [e|[|a single]]; [by left..|].
  destruct (all_matches _ _ _); [by left|].
  destruct (moved file _).2; by right.
Qed.

(** X13: a file name that starts with a slash and passes the checks is the
    path itself, whatever the base directory is: the upload is written to
    that absolute path, and the move, when the handler reaches it, is from
    that path onto itself. *)
Theorem X13_absolute_name_is_the_path req (s : fs_state) file selected_photos :
  (validate req s).2 = Next (file, selected_photos) →
  startswith (filename file) "/" = true →
  (upload_and_match req s).1.1
  = (file_save s (filename file) (content file)).1
  ∨ (upload_and_match req s).1.1
    = (shutil_move (file_save s (filename file) (content file)).1
         (filename file) (filename file)).1.
Proof.
  intros Hv Habs. destruct (validate_next req s _ _ Hv) as [l ->]. simpl.
  assert (single_image_path file = filename file) as Hsingle
    by (unfold single_image_path, path_join; by rewrite Habs).
  assert (processed_image_path file = filename file) as Hprocessed
    by (unfold processed_image_path, path_join; by rewrite Habs).
  destruct (after_process_state file selected_photos s) as [-> | ->];
    unfold saved, moved; rewrite ?Hsingle, ?Hprocessed; auto.
Qed.

(** X14: for a file name that does not start with a slash, whatever the base
    directory is, the upload is saved at the single folder, a slash and the
    name, and moved to the processed folder, a slash and the name; the two
    path strings are different.  (They can still name one file: see
    [two_paths_of_one_file] for a name with [..] in it.) *)
Theorem X14_relative_name_paths file :
  startswith (filename file) "/" = false →
  single_image_path file = (SINGLE_FOLDER ++ "/" ++ filename file)%string
  ∧ processed_image_path file = (PROCESSED_FOLDER ++ "/" ++ filename file)%string
  ∧ single_image_path file ≠ processed_image_path file.
Proof.
  intros Hrel. unfold single_image_path, processed_image_path.
  rewrite !(path_join_relative _ (filename file)) by done.
  unfold SINGLE_FOLDER, PROCESSED_FOLDER.
  rewrite !(path_join_relative BASE_DIR) by done.
  rewrite !dir_prefix_folder by done.
  rewrite !string_app_assoc. repeat split.
  intros Heq. apply String.app_inj in Heq. discriminate.
Qed.

End Paths.

(** ** An upper bound on the confidence

    The rounding lemmas again, from above. *)

Open Scope Z_scope.

Lemma lt_val_iff b m1 e1 m2 e2 :
  b <= e1 -> b <= e2 ->
  F64.lt_val m1 e1 m2 e2 <-> Zpos m1 * 2 ^ (e1 - b) < Zpos m2 * 2 ^ (e2 - b).
Proof.
  intros H1 H2. unfold F64.lt_val. set (k := Z.min e1 e2).
  assert (0 < 2 ^ (k - b)) by (apply Z.pow_pos_nonneg; lia).
  replace (e1 - b) with ((e1 - k) + (k - b)) by lia.
  replace (e2 - b) with ((e2 - k) + (k - b)) by lia.
  rewrite !Z.pow_add_r by lia. rewrite !Z.mul_assoc.
  set (A := Zpos m1 * 2 ^ (e1 - k)). set (B := Zpos m2 * 2 ^ (e2 - k)).
  split; intros; nia.
Qed.

Lemma lt_val_digits M E mc ec :
  Zpos (Pos.size mc) = 53 -> F64.lt_val M E mc ec ->
  Zpos (Pos.size M) + E <= 53 + ec.
Proof.
  intros Hmc Hlt.
  pose proof (size_bounds mc) as [_ Hc]. rewrite Hmc in Hc.
  pose proof (size_bounds M) as [HM _].
  set (d := Zpos (Pos.size M)) in *.
  assert (0 < d) by (unfold d; lia).
  destruct (Z.le_ge_cases E ec) as [HE|HE].
  - apply (lt_val_iff E) in Hlt; [|lia..]. rewrite Z.sub_diag, Z.mul_1_r in Hlt.
    assert (2 ^ (d - 1) < 2 ^ (53 + (ec - E))) as Hp.
    { rewrite Z.pow_add_r by lia.
      assert (0 < 2 ^ (ec - E)) by (apply Z.pow_pos_nonneg; lia). nia. }
    apply pow2_lt_inv in Hp; lia.
  - apply (lt_val_iff ec) in Hlt; [|lia..]. rewrite Z.sub_diag, Z.mul_1_r in Hlt.
    assert (2 ^ (d - 1 + (E - ec)) < 2 ^ 53) as Hp.
    { rewrite Z.pow_add_r by lia.
      assert (0 < 2 ^ (E - ec)) by (apply Z.pow_pos_nonneg; lia). nia. }
    apply pow2_lt_inv in Hp; lia.
Qed.

Lemma round_aux_at_most mc ec M E :
  Zpos (Pos.size mc) = 53 -> ec <= 971 ->
  F64.lt_val M E mc ec ->
  -1074 <= Zpos (Pos.size M) + E - 53 ->
  E <= Zpos (Pos.size M) + E - 53 ->
  F64.at_most mc ec (binary_round_aux F64.prec F64.emax false (Zpos M) E loc_Exact) = true.
Proof.
  intros Hmc Hec Hlt Hnorm Hn.
  pose proof (lt_val_digits _ _ _ _ Hmc Hlt) as Hd.
  pose proof (size_bounds M) as [HMlo HMhi].
  pose proof (size_bounds mc) as [Hclo Hchi]. rewrite Hmc in Hclo, Hchi.
  simpl (53 - 1) in Hclo.
  set (d := Zpos (Pos.size M)) in *.
  destruct (shr_fexp_spec M E loc_Exact) as [Hm1 He1]; [rewrite fexp_normal; lia|].
  fold d in Hm1, He1. rewrite fexp_normal in Hm1, He1 by lia.
  unfold binary_round_aux.
  destruct (shr_fexp F64.prec F64.emax (Zpos M) E loc_Exact) as [mrs' e'].
  simpl in Hm1, He1. subst e'.
  set (n := d + E - 53 - E) in *.
  assert (0 < 2 ^ n) as Hpn by (apply Z.pow_pos_nonneg; lia).
  assert (2 ^ (d - 1) = 2 ^ n * 2 ^ 52) as Hsplit1.
  { rewrite <- Z.pow_add_r by lia. f_equal. lia. }
  assert (2 ^ d = 2 ^ n * 2 ^ 53) as Hsplit2.
  { rewrite <- Z.pow_add_r by lia. f_equal. lia. }
  assert (2 ^ 52 <= shr_m mrs' < 2 ^ 53) as Hm1b.
  { rewrite Hm1. split.
    - apply Z.div_le_lower_bound; lia.
    - apply Z.div_lt_upper_bound; lia. }
  assert (d + E - 53 = ec -> shr_m mrs' < Zpos mc) as Hmcm.
  { intros Heq. rewrite Hm1. apply Z.div_lt_upper_bound; [lia|].
    apply (lt_val_iff E) in Hlt; [|lia..]. rewrite Z.sub_diag, Z.mul_1_r in Hlt.
    replace (ec - E) with n in Hlt by lia. lia. }
  pose proof (rne_bounds (shr_m mrs') (loc_of_shr_record mrs')) as Hrne.
  destruct (round_nearest_even (shr_m mrs') (loc_of_shr_record mrs')) as [|q|q] eqn:Hq;
    [lia| |lia].
  destruct (Z.ltb_spec (Zpos q) (2 ^ 53)) as [Hlt53|Hge].
  - assert (Zpos (Pos.size q) = 53) as Hsq by (apply size_unique; simpl (53 - 1); lia).
    destruct (shr_fexp_spec q (d + E - 53) loc_Exact) as [Hm2 He2];
      [rewrite Hsq, fexp_normal; lia|].
    rewrite Hsq, fexp_normal in Hm2, He2 by lia.
    destruct (shr_fexp F64.prec F64.emax (Zpos q) (d + E - 53) loc_Exact) as [mrs'' e''].
    simpl in Hm2, He2. subst e''.
    replace (53 + (d + E - 53) - 53 - (d + E - 53)) with 0 in Hm2 by lia.
    rewrite Z.div_1_r in Hm2. rewrite Hm2.
    replace (53 + (d + E - 53) - 53) with (d + E - 53) by lia.
    destruct (Z.leb_spec (d + E - 53) (F64.emax - F64.prec)) as [Hov|Hov];
      [|unfold F64.emax, F64.prec in Hov; lia].
    simpl. unfold bounded, canonical_mantissa.
    rewrite digits2_pos_size, Hsq, fexp_normal by lia.
    apply andb_true_iff. split.
    + apply andb_true_iff. split; [apply Z.eqb_eq; lia|by apply Z.leb_le].
    + destruct (Z.ltb_spec (d + E - 53) ec); [done|]. simpl.
      apply andb_true_iff. split; [apply Z.eqb_eq; lia|].
      apply Pos.leb_le. specialize (Hmcm ltac:(lia)). lia.
  - assert (Zpos q = 2 ^ 53) as Hq53 by lia.
    assert (d + E - 53 < ec) as Hlow.
    { destruct (Z.ltb_spec (d + E - 53) ec); [done|].
      specialize (Hmcm ltac:(lia)). lia. }
    assert (Zpos (Pos.size q) = 54) as Hsq.
    { apply size_unique. simpl (54 - 1). rewrite Hq53. split; [lia|].
      apply Z.pow_lt_mono_r; lia. }
    destruct (shr_fexp_spec q (d + E - 53) loc_Exact) as [Hm2 He2];
      [rewrite Hsq, fexp_normal; lia|].
    rewrite Hsq, fexp_normal in Hm2, He2 by lia.
    destruct (shr_fexp F64.prec F64.emax (Zpos q) (d + E - 53) loc_Exact) as [mrs'' e''].
    simpl in Hm2, He2. subst e''.
    replace (54 + (d + E - 53) - 53 - (d + E - 53)) with 1 in Hm2 by lia.
    rewrite Hq53 in Hm2. change (2 ^ 53 / 2 ^ 1) with (Zpos (2 ^ 52)) in Hm2.
    rewrite Hm2.
    destruct (Z.leb_spec (54 + (d + E - 53) - 53) (F64.emax - F64.prec)) as [Hov|Hov];
      [|unfold F64.emax, F64.prec in Hov; lia].
    simpl. unfold bounded, canonical_mantissa.
    change (Zpos (digits2_pos (2 ^ 52))) with 53.
    rewrite fexp_normal by lia.
    apply andb_true_iff. split.
    + apply andb_true_iff. split; [apply Z.eqb_eq; lia|by apply Z.leb_le].
    + destruct (Z.ltb_spec (54 + (d + E - 53) - 53) ec); [done|]. simpl.
      apply andb_true_iff. split; [apply Z.eqb_eq; lia|].
      apply Pos.leb_le. change (Zpos (2 ^ 52)) with (2 ^ 52) in *. lia.
Qed.

Lemma round_at_most mc ec M E :
  Zpos (Pos.size mc) = 53 -> ec <= 971 ->
  F64.lt_val M E mc ec ->
  -1074 <= Zpos (Pos.size M) + E - 53 ->
  F64.at_most mc ec (binary_round F64.prec F64.emax false M E) = true.
Proof.
  intros Hmc Hec Hlt Hnorm. unfold binary_round. rewrite digits2_pos_size.
  rewrite fexp_normal by lia.
  destruct (shl_align_spec M E (Zpos (Pos.size M) + E - 53)) as [Hmz Hez].
  destruct (shl_align M E (Zpos (Pos.size M) + E - 53)) as [mz ez]. simpl in Hmz, Hez.
  assert (Zpos (Pos.size mz) = Zpos (Pos.size M) + (E - ez)) as Hsz
    by (apply size_shift; [lia|done]).
  apply round_aux_at_most; [done..| |lia|lia].
  apply (lt_val_iff (Z.min ez ec)); [lia..|].
  apply (lt_val_iff (Z.min ez ec)) in Hlt; [|lia..].
  rewrite Hmz. rewrite <- Z.mul_assoc, <- Z.pow_add_r by lia.
  by replace (E - ez + (ez - Z.min ez ec)) with (E - Z.min ez ec) by lia.
Qed.

(** [1.0 - d] for a positive [d] below one half, before the rounding. *)
Lemma sub_one_exact m e :
  bounded F64.prec F64.emax m e = true -> e <= -54 ->
  exists M, F64.sub F64.one (S754_finite false m e)
            = binary_round F64.prec F64.emax false M e
            /\ Zpos M = 2 ^ (- e) - Zpos m
            /\ 2 * Zpos m < 2 ^ (- e).
Proof.
  intros Hvalid He.
  change F64.one with (S754_finite false 4503599627370496 (-52)).
  apply bounded_spec in Hvalid as (He' & Hsz & _).
  pose proof (size_bounds m) as [_ Hm].
  assert (Zpos m < 2 ^ 53) as Hm53.
  { eapply Z.lt_le_trans; [exact Hm|]. apply Z.pow_le_mono_r; lia. }
  assert (2 ^ 54 <= 2 ^ (- e)) as Hp by (apply Z.pow_le_mono_r; lia).
  change (2 ^ 53) with 9007199254740992 in Hm53.
  change (2 ^ 54) with 18014398509481984 in Hp.
  unfold F64.sub, SFsub.
  destruct (shl_align_spec 4503599627370496 (-52) (Z.min (-52) e)) as [Ha1 Hb1].
  destruct (shl_align_spec m e (Z.min (-52) e)) as [Ha2 Hb2].
  set (a1 := (shl_align 4503599627370496 (-52) (Z.min (-52) e)).1) in *.
  set (a2 := (shl_align m e (Z.min (-52) e)).1) in *.
  rewrite Hb1 in Ha1. rewrite Hb2 in Ha2.
  replace (Z.min (-52) (Z.min (-52) e)) with e in Ha1 by lia.
  replace (Z.min e (Z.min (-52) e)) with e in Ha2 by lia.
  replace (Z.min (-52) e) with e by lia.
  rewrite Z.sub_diag, Z.mul_1_r in Ha2.
  assert (Zpos a1 = 2 ^ (- e)) as Ha1'.
  { rewrite Ha1. change 4503599627370496 with (2 ^ 52).
    rewrite <- Z.pow_add_r by lia. f_equal. lia. }
  simpl cond_Zopp.
  destruct (Zpos a1 - Zpos a2) as [|M|M] eqn:HM; [lia| |lia].
  exists M. split; [done|]. lia.
Qed.

Lemma sub_one_at_most m e :
  bounded F64.prec F64.emax m e = true -> e <= -54 ->
  F64.at_most 4503599627370496 (-52) (F64.sub F64.one (S754_finite false m e)) = true.
Proof.
  intros Hvalid He.
  destruct (sub_one_exact m e Hvalid He) as (M & -> & HM & Hhalf).
  assert (0 < 2 ^ (-52 - e)) as Hp by (apply Z.pow_pos_nonneg; lia).
  assert (2 ^ (- e) = 4503599627370496 * 2 ^ (-52 - e)) as Hsplit.
  { change 4503599627370496 with (2 ^ 52). rewrite <- Z.pow_add_r by lia. f_equal. lia. }
  apply round_at_most; [done|lia| |].
  - apply (lt_val_iff e); [lia..|]. rewrite Z.sub_diag, Z.mul_1_r. lia.
  - (* the difference is above one half *)
    assert (2 ^ (- e - 1) <= Zpos M) as Hlow.
    { replace (- e) with (1 + (- e - 1)) in HM, Hhalf by lia.
      rewrite Z.pow_add_r in HM, Hhalf by lia. change (2 ^ 1) with 2 in *. lia. }
    pose proof (size_bounds M) as [_ Hhi].
    assert (2 ^ (- e - 1) < 2 ^ Zpos (Pos.size M)) as Hlt by lia.
    apply pow2_lt_inv in Hlt; lia.
Qed.

Lemma at_most_one_lt m e :
  F64.at_most 4503599627370496 (-52) (S754_finite false m e) = true ->
  S754_finite false m e <> S754_finite false 4503599627370496 (-52) ->
  F64.lt_val m e 4503599627370496 (-52).
Proof.
  simpl. rewrite andb_true_iff, orb_true_iff, andb_true_iff, Z.ltb_lt, Z.eqb_eq, Pos.leb_le.
  intros [Hb Hcmp] Hne. apply bounded_spec in Hb as (He & Hsz & Hnorm).
  pose proof (size_bounds m) as [Hlo Hhi].
  destruct Hcmp as [Hlt|[-> Hle]].
  - apply (lt_val_iff e); [lia..|]. rewrite Z.sub_diag, Z.mul_1_r.
    assert (Zpos m < 9007199254740992) as Hm53.
    { eapply Z.lt_le_trans; [exact Hhi|]. apply (Z.pow_le_mono_r 2 _ 53); lia. }
    assert (2 <= 2 ^ (-52 - e)) as Hp by (apply (Z.pow_le_mono_r 2 1); lia).
    clear -Hm53 Hp. lia.
  - rewrite Hnorm in Hlo by (clear; lia).
    assert (2 ^ (53 - 1) = 4503599627370496) as Hp by (clear; reflexivity).
    rewrite Hp in Hlo. clear Hp.
    assert (m = 4503599627370496%positive) as Hm.
    { apply Pos2Z.inj, Z.le_antisymm; [by apply Pos2Z.pos_le_pos|exact Hlo]. }
    by destruct Hne; rewrite Hm.
Qed.

Lemma mul_hundred_at_most x :
  F64.at_least F64.sixty_percent.1 F64.sixty_percent.2 x = true ->
  F64.at_most 4503599627370496 (-52) x = true ->
  F64.at_most 7036874417766400 (-46) (F64.mul x F64.hundred) = true.
Proof.
  intros Hlow Hhigh.
  assert (x = S754_finite false 4503599627370496 (-52)
          \/ x <> S754_finite false 4503599627370496 (-52)) as [->|Hne].
  { destruct x as [s|s| |s m e]; try (by right).
    destruct s; [by right|].
    destruct (Pos.eq_dec m 4503599627370496%positive) as [->|Hm],
             (Z.eq_dec e (-52)) as [->|He]; [by left|right; congruence..]. }
  { vm_compute. reflexivity. }
  change F64.hundred with (S754_finite false 7036874417766400 (-46)).
  destruct x as [s|[]| |[] mx ex]; try done.
  apply at_least_le_val in Hlow; [|done..]. simpl in Hlow.
  apply at_most_one_lt in Hhigh; [|done].
  pose proof (le_val_digits 5404319552844596 (-53) mx ex eq_refl Hlow) as Hdig.
  unfold F64.mul, SFmul. change (xorb false false) with false.
  assert (53 <= Zpos (Pos.size (mx * 7036874417766400))) as Hsize.
  { apply size_ge_53. rewrite Pos2Z.inj_mul. change (2 ^ 52) with 4503599627370496. lia. }
  (* the product is at least 2^52 times the factor *)
  assert (53 + Zpos (Pos.size mx) - 1 <= Zpos (Pos.size (mx * 7036874417766400))) as Hprod.
  { pose proof (size_bounds mx) as [Hlo _].
    pose proof (size_bounds (mx * 7036874417766400)) as [_ Hhi].
    rewrite Pos2Z.inj_mul in Hhi.
    assert (2 ^ (52 + (Zpos (Pos.size mx) - 1))
            < 2 ^ Zpos (Pos.size (mx * 7036874417766400))) as Hlt.
    { rewrite Z.pow_add_r by lia. change (2 ^ 52) with 4503599627370496. nia. }
    apply pow2_lt_inv in Hlt; lia. }
  apply round_aux_at_most; [done|lia| |lia|lia].
  set (b := Z.min ex (-52)).
  assert (b <= ex /\ b <= -52) as [Hb1 Hb2] by lia.
  apply (proj1 (lt_val_iff b _ _ _ _ Hb1 Hb2)) in Hhigh.
  apply (lt_val_iff (b + -46)); [lia..|].
  rewrite Pos2Z.inj_mul.
  replace (ex + -46 - (b + -46)) with (ex - b) by lia.
  replace (-46 - (b + -46)) with (-b) by lia.
  replace (-52 - b) with (-b - 52) in Hhigh by lia.
  assert (2 ^ (- b) = 4503599627370496 * 2 ^ (- b - 52)) as ->.
  { change 4503599627370496 with (2 ^ 52). rewrite <- Z.pow_add_r by lia. f_equal. lia. }
  clearbody b. clear -Hhigh. nia.
Qed.

Lemma round_half_even_le num den k :
  0 < den -> num <= k * den -> F64.round_half_even num den <= k.
Proof.
  intros Hden Hnum. unfold F64.round_half_even.
  pose proof (Z.div_mod num den ltac:(lia)) as Hdm.
  pose proof (Z.mod_pos_bound num den Hden) as Hr.
  assert (num / den <= k) as Hq by (apply Z.div_le_upper_bound; lia).
  destruct (Z.eq_dec (num / den) k) as [Hk|Hk].
  - assert (num mod den = 0) as -> by nia.
    destruct (Z.compare_spec (2 * 0) den); [lia|lia|lia].
  - destruct (2 * (num mod den) ?= den); [destruct (Z.even _)|..]; lia.
Qed.

Lemma at_most_hundredths m e :
  F64.at_most 7036874417766400 (-46) (S754_finite false m e) = true ->
  F64.hundredths m e <= 10000.
Proof.
  simpl. rewrite andb_true_iff, orb_true_iff, andb_true_iff, Z.ltb_lt, Z.eqb_eq, Pos.leb_le.
  intros [Hb Hcmp]. apply bounded_spec in Hb as (He & Hsz & _).
  assert (e < -46 \/ e = -46 /\ Zpos m <= 7036874417766400) as Hcmp'.
  { destruct Hcmp as [?|[? Hle]]; [by left|right]. split; [done|].
    by apply Pos2Z.pos_le_pos. }
  clear Hcmp. rename Hcmp' into Hcmp.
  pose proof (size_bounds m) as [_ Hhi].
  assert (Zpos m < 9007199254740992) as Hm53.
  { eapply Z.lt_le_trans; [exact Hhi|]. apply (Z.pow_le_mono_r 2 _ 53); lia. }
  unfold F64.hundredths. destruct e as [|p|p]; [lia|lia|].
  assert (0 < 2 ^ Zpos p) as Hpos by (by apply Z.pow_pos_nonneg).
  apply round_half_even_le; [done|].
  destruct Hcmp as [Hlt|[Heq Hle]].
  - assert (2 ^ 47 <= 2 ^ Zpos p) as Hp by (apply Z.pow_le_mono_r; lia).
    assert (2 ^ 47 = 140737488355328) as Hv by (clear; reflexivity).
    rewrite Hv in Hp. clear -Hm53 Hp. lia.
  - injection Heq as ->.
    assert (2 ^ 46 = 70368744177664) as -> by (clear; reflexivity).
    clear -Hle. lia.
Qed.

Lemma nonneg_below_threshold d :
  F64.valid d = true -> F64.leb F64.zero d = true ->
  F64.ltb d distance_threshold = true ->
  (exists s, d = S754_zero s)
  \/ exists m e, d = S754_finite false m e
       /\ bounded F64.prec F64.emax m e = true /\ e <= -54.
Proof.
  intros Hvalid Hnn Hlt. destruct d as [s|[]| |[] m e]; try done.
  - left. by exists s.
  - right. exists m, e. split; [done|]. split; [done|].
    apply ltb_threshold in Hlt. lia.
Qed.

Lemma confidence_at_most d :
  F64.valid d = true -> F64.leb F64.zero d = true ->
  F64.ltb d distance_threshold = true ->
  F64.at_most 7036874417766400 (-46) (confidence_value d) = true.
Proof.
  intros Hvalid Hnn Hlt.
  destruct (nonneg_below_threshold d Hvalid Hnn Hlt) as [[s ->]|(m & e & -> & Hb & He)].
  { destruct s; vm_compute; reflexivity. }
  assert (S754_finite false m e = S754_finite false 7205759403792793 (-54)
          \/ S754_finite false m e <> S754_finite false 7205759403792793 (-54)) as [->|Hne].
  { destruct (Pos.eq_dec m 7205759403792793%positive) as [->|Hm],
             (Z.eq_dec e (-54)) as [->|He']; [by left|right; congruence..]. }
  - vm_compute. reflexivity.
  - unfold confidence_value.
    pose proof (sub_one_at_least _ Hvalid Hlt Hne) as Hsub.
    rewrite (max0_at_least _ _ _ Hsub).
    apply mul_hundred_at_most; [done|]. by apply sub_one_at_most.
Qed.

Lemma clamp_is_idle d :
  F64.valid d = true -> F64.ltb d distance_threshold = true ->
  max0 (F64.sub F64.one d) = F64.sub F64.one d.
Proof.
  intros Hvalid Hlt.
  assert (d = S754_finite false 7205759403792793 (-54)
          \/ d <> S754_finite false 7205759403792793 (-54)) as [->|Hne].
  { destruct d as [s|s| |s m e]; try (by right).
    destruct s; [by right|].
    destruct (Pos.eq_dec m 7205759403792793%positive) as [->|Hm],
             (Z.eq_dec e (-54)) as [->|He]; [by left|right; congruence..]. }
  - vm_compute. reflexivity.
  - by eapply max0_at_least, sub_one_at_least.
Qed.

(** ** The confidence of a reported match *)

Section Range.

Context `{FS : FileSystem} `{JS : json.API} `{FR : !face_recognition.API}.

(** X15: in a 200 answer with matches whose distances are doubles that are
    not negative, every confidence reads as a number of hundredths between
    "60.00 %" and "100.00 %". *)
Theorem X15_confidence_range req s s' l message matches uploaded :
  (∀ r, r ∈ matches →
     F64.valid (face_distance r) = true ∧ F64.leb F64.zero (face_distance r) = true) →
  upload_and_match req s = (s', l, Response (Matches message matches uploaded) 200) →
  ∀ r, r ∈ matches →
    ∃ n, 6000 ≤ n ≤ 10000 ∧ confidence r = (F64.fixed2 n ++ " %")%string.
Proof.
  intros Hdist Hrun r Hr.
  destruct (matches_of_response _ _ _ _ _ _ _ _ Hrun r Hr)
    as (f & id & i & se & j & be & Hpair).
  destruct (Hdist r Hr) as [Hvalid Hnn].
  apply compare_pair_Some in Hpair as (_ & Hlt & ->). simpl in *.
  pose proof (confidence_at_least _ Hvalid Hlt) as Hlow.
  pose proof (confidence_at_most _ Hvalid Hnn Hlt) as Hhigh.
  unfold confidence_text.
  destruct (confidence_value _) as [?|[]| |[] m e]; try done.
  exists (F64.hundredths m e).
  split; [split; [by apply at_least_hundredths|by apply at_most_hundredths]|done].
Qed.

(** X16: for a reported match [max(0, 1.0 - distance)] is [1.0 - distance]:
    the clamp of line 113 never changes the confidence of a match, whatever
    double below the threshold the distance is. *)
Theorem X16_clamp_is_idle req s s' l message matches uploaded :
  (∀ r, r ∈ matches → F64.valid (face_distance r) = true) →
  upload_and_match req s = (s', l, Response (Matches message matches uploaded) 200) →
  ∀ r, r ∈ matches →
    confidence r
    = (F64.format_2f (F64.mul (F64.sub F64.one (face_distance r)) F64.hundred) ++ " %")%string.
Proof.
  intros Hdist Hrun r Hr.
  destruct (matches_of_response _ _ _ _ _ _ _ _ Hrun r Hr)
    as (f & id & i & se & j & be & Hpair).
  specialize (Hdist r Hr).
  apply compare_pair_Some in Hpair as (_ & Hlt & ->). simpl in *.
  unfold confidence_text, confidence_value. by rewrite clamp_is_idle.
Qed.

End Range.

(** ** The move, the tolerance and the files that are read *)

Lemma below_threshold_within_tolerance (d : F64.float) :
  F64.ltb d distance_threshold = true → F64.leb d tolerance = true.
Proof.
  change tolerance with (S754_finite false 4503599627370496 (-53)).
  destruct d as [[]|[]| |[] m e]; try done.
  intros [He|[-> _]]%ltb_threshold; unfold F64.leb, SFleb, SFcompare.
  - by destruct (Z.compare_spec e (-53)); [lia| |lia].
  - done.
Qed.

Section Loop.

Context `{FS : FileSystem} `{JS : json.API} `{FR : !face_recognition.API}.

Lemma all_matches_strings (s : fs_state) single_encodings selected_photos :
  Forall (λ kv, ∃ image_file, kv.1 = PStr image_file) selected_photos →
  ∃ results, all_matches s single_encodings selected_photos = inr results.
Proof.
  induction 1 as [|[k v] sel [name Hname] _ [rs IH]]; simpl; [by eexists|].
  simpl in Hname. subst k. rewrite IH. by eexists.
Qed.

(** X17: when every name is a string and the move fails, the answer is 500
    with the text of the exception, whether or not the loop found matches:
    the matches are not in the answer, and the file system is the one the
    failed move left. *)
Theorem X17_move_failure_is_500 req s file selected_photos single_encodings e :
  (validate req s).2 = Next (file, selected_photos) →
  (saved file s).2 = None →
  encodings_at (saved file s).1 (single_image_path file) = inr single_encodings →
  single_encodings ≠ [] →
  Forall (λ kv, ∃ image_file, kv.1 = PStr image_file) selected_photos →
  (moved file (saved file s).1).2 = Some e →
  ∃ l, upload_and_match req s
       = ((moved file (saved file s).1).1, l,
          Response (Error ("Failed to move processed image: " ++ e)) 500).
Proof.
  intros Hv Hsave Henc Hne Hstr Hmove.
  destruct (validate_next req s _ _ Hv) as [l Hl].
  destruct (all_matches_strings (saved file s).1 single_encodings _ Hstr) as [rs Hrs].
  exists l. rewrite Hl. unfold after_process. rewrite Hsave, Henc.
  destruct single_encodings as [|se single]; [done|]. by rewrite Hrs, Hmove.
Qed.

(** X18: when [compare_faces] is the library's [face_distance <= tolerance],
    a pair of faces is recorded exactly when its distance is below 0.4: a
    distance below the threshold is within the tolerance 0.5, so the
    comparison never decides. *)
Theorem X18_tolerance_is_redundant image_file image_id i se j be :
  (∀ known e tol,
     face_recognition.compare_faces known e tol
     = F64.leb (face_recognition.face_distance known e) tol) →
  is_Some (compare_pair image_file image_id i se j be)
  ↔ F64.ltb (face_recognition.face_distance be se) distance_threshold = true.
Proof.
  intros Hlib. split.
  - intros [r Hr]. by apply compare_pair_Some in Hr as (_ & Hlt & _).
  - intros Hlt. eexists. apply compare_pair_Some. split; [|by split].
    rewrite Hlib. by apply below_threshold_within_tolerance.
Qed.

Lemma encodings_at_ext (s1 s2 : fs_state) path :
  face_recognition.load_image_file s1 path = face_recognition.load_image_file s2 path →
  encodings_at s1 path = encodings_at s2 path.
Proof. unfold encodings_at. by intros ->. Qed.

(** X19: the loop looks at the bulk files that the request names and at no
    other: on two file systems that agree on the existence and the image of
    every named bulk file it ends the same way, with the same results. *)
Theorem X19_only_named_files_are_read (s1 s2 : fs_state) single_encodings selected_photos :
  (∀ image_file image_id, (PStr image_file, image_id) ∈ selected_photos →
     os_path_exists s1 (path_join BULK_FOLDER image_file)
     = os_path_exists s2 (path_join BULK_FOLDER image_file)
     ∧ face_recognition.load_image_file s1 (path_join BULK_FOLDER image_file)
       = face_recognition.load_image_file s2 (path_join BULK_FOLDER image_file)) →
  (match_candidates single_encodings selected_photos s1).2
  = (match_candidates single_encodings selected_photos s2).2.
Proof.
  intros Hagree. rewrite !match_candidates_result.
  assert (all_matches s1 single_encodings selected_photos
          = all_matches s2 single_encodings selected_photos) as ->; [|done].
  induction selected_photos as [|[k v] sel IH]; simpl; [done|].
  rewrite IH by (intros name id Hin; apply (Hagree name id); by right).
  destruct k; try done.
  destruct (Hagree s v ltac:(by left)) as [Hex Hload].
  unfold candidate_matches. by rewrite Hex, (encodings_at_ext s1 s2 _ Hload).
Qed.

End Loop.

(** ** The further properties at concrete requests *)

Module FurtherWitness.
Import Stub Faulty.

Lemma X1_witness :
  ∃ l, @upload_and_match (full_disk false) json_api (faces_on_full_disk false)
         (upload "face1.jpg" (face 0) two_photos) disk
       = (disk, l,
          Response (Error "Failed to save uploaded file: No space left on device") 500).
Proof.
  apply (@X1_save_failure_is_500 (full_disk false) json_api (faces_on_full_disk false)
           (upload "face1.jpg" (face 0) two_photos) disk face1
           [(PStr "a.jpg", PInt 1); (PStr "b.jpg", PInt 2)]
           "No space left on device").
  - vm_compute. reflexivity.
  - reflexivity.
Defined.

Lemma X2_witness :
  ∃ l, @upload_and_match file_system json_api strict_faces
         (upload "blank.png" [] two_photos) disk
       = (<["/app/single/blank.png"%string := []]> disk, l,
          Response (Error "Failed to process the uploaded image: cannot identify image file")
                   500).
Proof.
  apply (@X2_unreadable_upload_is_500 file_system json_api strict_faces
           (upload "blank.png" [] two_photos) disk
           {| filename := "blank.png"; content := [] |}
           [(PStr "a.jpg", PInt 1); (PStr "b.jpg", PInt 2)]
           "cannot identify image file").
  - vm_compute. reflexivity.
  - reflexivity.
  - vm_compute. reflexivity.
Defined.

Lemma X3_witness :
  ∃ l, @upload_and_match file_system json_numbers face_api
         (upload "face1.jpg" (face 0) numeric_name) disk
       = (<["/app/single/face1.jpg"%string := face 0]> disk, l, Uncaught TypeError).
Proof.
  apply (@X3_name_not_a_string_raises file_system json_numbers face_api
           (upload "face1.jpg" (face 0) numeric_name) disk face1
           [] (PInt 5) (PInt 1) [] [0]).
  - vm_compute. reflexivity.
  - constructor.
  - discriminate.
  - reflexivity.
  - vm_compute. reflexivity.
  - discriminate.
Defined.

Lemma X5_witness :
  (match_candidates [0] ([(PStr "a.jpg", PInt 1)] ++ [(PStr "b.jpg", PInt 2)]) disk).2
  = Next ([match_a] ++ []).
Proof.
  apply (@X5_candidates_compose file_system face_api
           [0] [(PStr "a.jpg", PInt 1)] [(PStr "b.jpg", PInt 2)] disk [match_a] []).
  - vm_compute. reflexivity.
  - vm_compute. reflexivity.
Defined.

Lemma X6_witness :
  ∃ file selected_photos single_encodings bulk_encodings,
    (validate (upload "face1.jpg" (face 0) two_photos) disk).2
    = Next (file, selected_photos)
    ∧ (PStr (matched_file match_a), matched_id match_a) ∈ selected_photos
    ∧ encodings_at (saved file disk).1 (single_image_path file) = inr single_encodings
    ∧ os_path_exists (saved file disk).1 (path_join BULK_FOLDER (matched_file match_a))
      = true
    ∧ encodings_at (saved file disk).1 (path_join BULK_FOLDER (matched_file match_a))
      = inr bulk_encodings
    ∧ (uploaded_face_index match_a < length single_encodings)%nat
    ∧ (matched_face_index_in_bulk match_a < length bulk_encodings)%nat.
Proof.
  apply (@X6_matches_come_from_the_request file_system json_api face_api
           (upload "face1.jpg" (face 0) two_photos) disk
           (handle (upload "face1.jpg" (face 0) two_photos) disk).1.1
           (handle (upload "face1.jpg" (face 0) two_photos) disk).1.2
           "Success! Matches found." [match_a] "face1.jpg" match_a).
  - vm_compute. reflexivity.
  - apply list_elem_of_singleton. reflexivity.
Defined.

Lemma X7_witness :
  logged_matches (handle (upload "face1.jpg" (face 0) two_photos) disk).1.2 = [match_a].
Proof.
  apply (@X7_every_match_is_logged file_system json_api face_api
           (upload "face1.jpg" (face 0) two_photos) disk face1
           [(PStr "a.jpg", PInt 1); (PStr "b.jpg", PInt 2)] [0] [match_a]).
  - vm_compute. reflexivity.
  - reflexivity.
  - vm_compute. reflexivity.
  - discriminate.
  - vm_compute. reflexivity.
Defined.

Lemma X8_witness :
  ∃ file selected_photos chunks,
    (validate (upload "face1.jpg" (face 0) two_photos) disk).2
    = Next (file, selected_photos)
    ∧ [match_a] = concat chunks
    ∧ Forall2 (λ kv chunk,
        ∃ image_file, kv.1 = PStr image_file
          ∧ Forall (λ r, matched_file r = image_file ∧ matched_id r = kv.2) chunk
          ∧ StronglySorted lex_lt (indices <$> chunk))
        selected_photos chunks.
Proof.
  apply (@X8_matches_are_ordered file_system json_api face_api
           (upload "face1.jpg" (face 0) two_photos) disk
           (handle (upload "face1.jpg" (face 0) two_photos) disk).1.1
           (handle (upload "face1.jpg" (face 0) two_photos) disk).1.2
           "Success! Matches found." [match_a] "face1.jpg").
  vm_compute. reflexivity.
Defined.

Lemma X9_witness :
  @upload_and_match file_system json_api face_api
    (upload "notes.txt" (face 0) numeric_name) disk
  = @upload_and_match file_system json_numbers strict_faces
      (upload "notes.txt" (face 0) numeric_name) disk.
Proof.
  apply (@X9_early_checks_do_not_decode file_system json_api json_numbers
           face_api strict_faces (upload "notes.txt" (face 0) numeric_name) disk).
  right. right. exists {| filename := "notes.txt"; content := face 0 |}.
  split; [vm_compute; reflexivity|]. right. vm_compute. reflexivity.
Defined.

Lemma X11_witness :
  NoDup (names_of [(PStr "a.jpg", PInt 1); (PStr "b.jpg", PInt 2)])
  ∧ ∀ n, dict_lookup (PStr n) [(PStr "a.jpg", PInt 1); (PStr "b.jpg", PInt 2)]
         = last (ids_named n [photo "a.jpg" 1; photo "b.jpg" 2]).
Proof.
  apply (@X11_last_id_wins json_api two_photos
           (PList [photo "a.jpg" 1; photo "b.jpg" 2])
           [photo "a.jpg" 1; photo "b.jpg" 2]
           [(PStr "a.jpg", PInt 1); (PStr "b.jpg", PInt 2)]).
  - vm_compute. reflexivity.
  - vm_compute. reflexivity.
  - reflexivity.
Defined.

Lemma X13_witness :
  (handle (upload "/tmp/face1.jpg" (face 0) two_photos) disk).1.1
  = (file_save disk "/tmp/face1.jpg" (face 0)).1
  ∨ (handle (upload "/tmp/face1.jpg" (face 0) two_photos) disk).1.1
    = (shutil_move (file_save disk "/tmp/face1.jpg" (face 0)).1
         "/tmp/face1.jpg" "/tmp/face1.jpg").1.
Proof.
  apply (@X13_absolute_name_is_the_path file_system json_api face_api
           (upload "/tmp/face1.jpg" (face 0) two_photos) disk
           {| filename := "/tmp/face1.jpg"; content := face 0 |}
           [(PStr "a.jpg", PInt 1); (PStr "b.jpg", PInt 2)]).
  - vm_compute. reflexivity.
  - reflexivity.
Defined.

Lemma X14_witness :
  single_image_path face1 = (SINGLE_FOLDER ++ "/" ++ filename face1)%string
  ∧ processed_image_path face1 = (PROCESSED_FOLDER ++ "/" ++ filename face1)%string
  ∧ single_image_path face1 ≠ processed_image_path face1.
Proof.
  apply (@X14_relative_name_paths file_system face1). reflexivity.
Defined.

Lemma X15_witness :
  ∃ n, 6000 ≤ n ≤ 10000 ∧ confidence match_near = (F64.fixed2 n ++ " %")%string.
Proof.
  apply (@X15_confidence_range file_system json_api face_api
           (upload "face1.jpg" (face 0) one_photo) disk_near
           (handle (upload "face1.jpg" (face 0) one_photo) disk_near).1.1
           (handle (upload "face1.jpg" (face 0) one_photo) disk_near).1.2
           "Success! Matches found." [match_near] "face1.jpg").
  - intros r Hr. apply list_elem_of_singleton in Hr as ->. vm_compute. split; reflexivity.
  - vm_compute. reflexivity.
  - apply list_elem_of_singleton. reflexivity.
Defined.

Lemma X16_witness :
  confidence match_a
  = (F64.format_2f (F64.mul (F64.sub F64.one (face_distance match_a)) F64.hundred)
     ++ " %")%string.
Proof.
  apply (@X16_clamp_is_idle file_system json_api face_api
           (upload "face1.jpg" (face 0) two_photos) disk
           (handle (upload "face1.jpg" (face 0) two_photos) disk).1.1
           (handle (upload "face1.jpg" (face 0) two_photos) disk).1.2
           "Success! Matches found." [match_a] "face1.jpg").
  - intros r Hr. apply list_elem_of_singleton in Hr as ->. vm_compute. reflexivity.
  - vm_compute. reflexivity.
  - apply list_elem_of_singleton. reflexivity.
Defined.

Lemma X17_witness :
  ∃ l, @upload_and_match (full_disk true) json_api (faces_on_full_disk true)
         (upload "face1.jpg" (face 0) two_photos) disk
       = (<["/app/single/face1.jpg"%string := face 0]> disk, l,
          Response (Error "Failed to move processed image: No space left on device") 500).
Proof.
  apply (@X17_move_failure_is_500 (full_disk true) json_api (faces_on_full_disk true)
           (upload "face1.jpg" (face 0) two_photos) disk face1
           [(PStr "a.jpg", PInt 1); (PStr "b.jpg", PInt 2)] [0]
           "No space left on device").
  - vm_compute. reflexivity.
  - reflexivity.
  - vm_compute. reflexivity.
  - discriminate.
  - repeat constructor; eexists; reflexivity.
  - reflexivity.
Defined.

Lemma X18_witness :
  is_Some (compare_pair "a.jpg" (PInt 1) 0 0 0 20000)
  ↔ F64.ltb (face_recognition.face_distance 20000 0) distance_threshold = true.
Proof.
  apply (@X18_tolerance_is_redundant file_system face_api "a.jpg" (PInt 1) 0%nat 0 0%nat 20000).
  intros known e tol. reflexivity.
Defined.

Lemma X19_witness :
  (match_candidates [0] [(PStr "a.jpg", PInt 1)] disk).2
  = (match_candidates [0] [(PStr "a.jpg", PInt 1)]
       (<["/app/bulk/c.jpg"%string := face 7]> disk)).2.
Proof.
  apply (@X19_only_named_files_are_read file_system face_api
           disk (<["/app/bulk/c.jpg"%string := face 7]> disk) [0] [(PStr "a.jpg", PInt 1)]).
  intros image_file image_id [= -> ->]%list_elem_of_singleton.
  vm_compute. split; reflexivity.
Defined.

(** The two paths of [../processed/x.jpg] are different strings that name
    the same file, [/app/processed/x.jpg]. *)
Example two_paths_of_one_file :
  single_image_path {| filename := "../processed/x.jpg"; content := face 0 |}
  = "/app/single/../processed/x.jpg"%string
  ∧ processed_image_path {| filename := "../processed/x.jpg"; content := face 0 |}
    = "/app/processed/../processed/x.jpg"%string
  ∧ normpath "/app/single/../processed/x.jpg" = "/app/processed/x.jpg"%string
  ∧ normpath "/app/processed/../processed/x.jpg" = "/app/processed/x.jpg"%string.
Proof. vm_compute. repeat split; reflexivity. Qed.

(** A text on which the decoder raises [RecursionError]: line 60 does not
    catch it, the exception leaves the handler and nothing is written. *)
Example decoder_exception_is_uncaught :
  @upload_and_match file_system json_objects face_api
    (upload "face1.jpg" (face 0) deep_nesting) disk
  = (disk,
     (@upload_and_match file_system json_objects face_api
        (upload "face1.jpg" (face 0) deep_nesting) disk).1.2,
     Uncaught RecursionError).
Proof. vm_compute. reflexivity. Qed.

End FurtherWitness.
